(** * AI description generator backend: a shallow embedding and its properties

    The development follows the TypeScript sources of the backend:
    - [Js]           the fragments of the JavaScript language the services rely on
                     (strings as UTF-16 code units, truthiness, property lookup on
                     object literals, [Math.floor]/[Math.ceil] on doubles);
    - [Regex]        the backtracking matcher behind [String.prototype.match];
    - [ErrorHandler] middleware/errorHandler.ts;
    - [Config]       the pricing-plan table of config/index.ts;
    - [OpenAI]       services/openaiService.ts;
    - [Auth]         middleware/auth.ts;
    - [Redis]        config/redis.ts;
    - [StripeService], [ShopifyService]
                     the webhook signature checks of the two services.

    Part I holds the definitions, Part II the lemmas and theorems. *)

From Stdlib Require Import ZArith NArith List String Ascii Floats Uint63 Lia.
From stdpp Require Import base option list gmap relations.

Set Warnings "-inexact-float,-register-all".

(* ===================================================================== *)
(** * Part I: definitions                                                 *)
(* ===================================================================== *)

(** ** JavaScript values *)
Module Js.

(** A JavaScript string is a sequence of UTF-16 code units. *)
Definition jsstring : Type := list N.

(** A source-code literal: every character of the literals used by the
    services is ASCII, one code unit each. *)
Definition js (s : string) : jsstring :=
  map N_of_ascii (list_ascii_of_string s).
Arguments js s%_string.

Definition LF : N := 10.

(** [WhiteSpace] and [LineTerminator] of ECMA-262: what [trim] strips and
    what the class [\s] matches. *)
Definition isWhiteSpace (c : N) : bool :=
  ((9 <=? c) && (c <=? 13) || (c =? 32) || (c =? 160) || (c =? 5760)
   || (8192 <=? c) && (c <=? 8202) || (c =? 8232) || (c =? 8233)
   || (c =? 8239) || (c =? 8287) || (c =? 12288) || (c =? 65279))%N.

(** The class [\d]. *)
Definition isDigit (c : N) : bool := ((48 <=? c) && (c <=? 57))%N.

Fixpoint trimStart (s : jsstring) : jsstring :=
  match s with
  | c :: s' => if isWhiteSpace c then trimStart s' else s
  | [] => []
  end.

Definition trimEnd (s : jsstring) : jsstring := rev (trimStart (rev s)).

Definition trim (s : jsstring) : jsstring := trimEnd (trimStart s).

(** [s.split(sep)] for a separator of one code unit. *)
Fixpoint split (sep : N) (s : jsstring) : list jsstring :=
  match s with
  | [] => [[]]
  | c :: s' =>
      if (c =? sep)%N then [] :: split sep s'
      else match split sep s' with
           | piece :: pieces => (c :: piece) :: pieces
           | [] => [[c]]
           end
  end.

(** [s.split(/\s+/)]: the pieces between maximal runs of white space.
    [inSeparator] tells that the previous code unit was white space. *)
Fixpoint splitWhiteSpaceFrom (inSeparator : bool) (s : jsstring) : list jsstring :=
  match s with
  | [] => [[]]
  | c :: s' =>
      if isWhiteSpace c then
        if inSeparator then splitWhiteSpaceFrom true s'
        else [] :: splitWhiteSpaceFrom true s'
      else match splitWhiteSpaceFrom false s' with
           | piece :: pieces => (c :: piece) :: pieces
           | [] => [[c]]
           end
  end.

Definition splitWhiteSpace (s : jsstring) : list jsstring :=
  splitWhiteSpaceFrom false s.

(** [parseInt] on a run of decimal digits (exact below 2^53, where a double
    holds every integer). *)
Definition parseInt (digits : jsstring) : N :=
  fold_left (fun acc c => (10 * acc + (c - 48))%N) digits 0%N.

(** [a.includes(x)] on an array of strings. *)
Definition includes (x : jsstring) (a : list jsstring) : bool :=
  bool_decide (x ∈ a).

(** The values that travel as [any]. *)
Inductive value : Type :=
| VUndefined
| VNull
| VBool (b : bool)
| VNumber (n : Z)
| VString (s : jsstring)
| VObject (fields : list (jsstring * value)).

Definition truthy (v : value) : bool :=
  match v with
  | VUndefined | VNull => false
  | VBool b => b
  | VNumber n => negb (n =? 0)%Z
  | VString s => negb (bool_decide (s = []))
  | VObject _ => true
  end.

(** The property names every object literal inherits from
    [Object.prototype]; each of them holds a function or an object. *)
Definition objectPrototypeKeys : list jsstring :=
  [ js "constructor"; js "__defineGetter__"; js "__defineSetter__";
    js "hasOwnProperty"; js "__lookupGetter__"; js "__lookupSetter__";
    js "isPrototypeOf"; js "propertyIsEnumerable"; js "toString";
    js "valueOf"; js "__proto__"; js "toLocaleString" ].

(** The outcome of [literal[key]] on an object literal whose own
    properties are the entries of a table. *)
Inductive property (A : Type) : Type :=
| Own (a : A)        (* an entry of the literal *)
| Inherited          (* a member of Object.prototype: truthy, not an entry *)
| Missing.           (* undefined *)
Arguments Own {A} a.
Arguments Inherited {A}.
Arguments Missing {A}.

Definition getProperty {A} (literal : gmap jsstring A) (key : jsstring) : property A :=
  match literal !! key with
  | Some a => Own a
  | None => if bool_decide (key ∈ objectPrototypeKeys) then Inherited else Missing
  end.

(** [Math.floor] on a double: a finite double with a non-negative exponent
    is an integer already; otherwise its magnitude is below 2^53 and the
    rounded integer converts back exactly. *)
Definition floor (x : float) : float :=
  match Prim2SF x with
  | S754_finite negative m e =>
      if (0 <=? e)%Z then x
      else
        let d := (2 ^ (- e))%Z in
        let q := (Z.pos m / d)%Z in
        let exact := ((Z.pos m) mod d =? 0)%Z in
        if negative
        then PrimFloat.opp (PrimFloat.of_uint63 (Uint63.of_Z (if exact then q else q + 1)))
        else PrimFloat.of_uint63 (Uint63.of_Z q)
  | _ => x
  end.

Definition ceil (x : float) : float := PrimFloat.opp (floor (PrimFloat.opp x)).

(** [a.join(sep)] on an array of strings. *)
Fixpoint join (sep : jsstring) (a : list jsstring) : jsstring :=
  match a with
  | [] => []
  | [x] => x
  | x :: rest => x ++ sep ++ join sep rest
  end.

End Js.

(** ** Regular expressions, as [String.prototype.match] runs them *)
Module Regex.
Import Js.

(** The constructs the patterns of the services use.  Quantifiers apply to
    a class of code units, which is all the patterns need. *)
Inductive regex : Type :=
| Lit (text : jsstring)            (* literal text *)
| StarGreedy (cls : N -> bool)     (* c*  *)
| PlusGreedy (cls : N -> bool)     (* c+  *)
| StarLazy (cls : N -> bool)       (* c*? *)
| Seq (r1 r2 : regex)
| Alt (r1 r2 : regex)              (* r1|r2 *)
| Group (r : regex)                (* the capture group *)
| LookAhead (r : regex)            (* (?=r) *)
| EndAnchor.                       (* $ without the m flag *)

(** A successful match: the input left after it, and the capture. *)
Definition result : Type := jsstring * option jsstring.

Fixpoint stripPrefix (text s : jsstring) : option jsstring :=
  match text, s with
  | [], _ => Some s
  | a :: text', c :: s' => if (a =? c)%N then stripPrefix text' s' else None
  | _ :: _, [] => None
  end.

(** Greedy repetition: take the longest run first, give back one code unit
    at a time while the continuation fails. *)
Fixpoint starGreedy (cls : N -> bool) (s : jsstring)
    (k : jsstring -> option result) : option result :=
  match s with
  | c :: s' =>
      if cls c then
        match starGreedy cls s' k with
        | Some r => Some r
        | None => k s
        end
      else k s
  | [] => k []
  end.

(** Lazy repetition: try the continuation first, take one more code unit
    while it fails. *)
Fixpoint starLazy (cls : N -> bool) (s : jsstring)
    (k : jsstring -> option result) : option result :=
  match k s with
  | Some r => Some r
  | None =>
      match s with
      | c :: s' => if cls c then starLazy cls s' k else None
      | [] => None
      end
  end.

(** The backtracking matcher in continuation-passing style: [s] is the
    input from the current position, [g] the capture so far. *)
Fixpoint run (r : regex) (s : jsstring) (g : option jsstring)
    (k : jsstring -> option jsstring -> option result) : option result :=
  match r with
  | Lit text =>
      match stripPrefix text s with
      | Some s' => k s' g
      | None => None
      end
  | StarGreedy cls => starGreedy cls s (fun s' => k s' g)
  | PlusGreedy cls =>
      match s with
      | c :: s' => if cls c then starGreedy cls s' (fun s'' => k s'' g) else None
      | [] => None
      end
  | StarLazy cls => starLazy cls s (fun s' => k s' g)
  | Seq r1 r2 => run r1 s g (fun s' g' => run r2 s' g' k)
  | Alt r1 r2 =>
      match run r1 s g k with
      | Some res => Some res
      | None => run r2 s g k
      end
  | Group r1 =>
      run r1 s g (fun s' _ => k s' (Some (take (length s - length s') s)))
  | LookAhead r1 =>
      match run r1 s g (fun s' g' => Some (s', g')) with
      | Some (_, g') => k s g'
      | None => None
      end
  | EndAnchor =>
      match s with
      | [] => k [] g
      | _ :: _ => None
      end
  end.

(** A non-global pattern is tried at every start position, left to right. *)
Fixpoint exec (r : regex) (s : jsstring) : option result :=
  match run r s None (fun s' g => Some (s', g)) with
  | Some res => Some res
  | None =>
      match s with
      | _ :: s' => exec r s'
      | [] => None
      end
  end.

(** [s.match(r)] read at index 1: the capture of the first match.  Every
    pattern below has its group on each path, so a match sets it
    ([exec_sets_group] in Part II). *)
Definition match1 (r : regex) (s : jsstring) : option jsstring :=
  match exec r s with
  | Some (_, Some g) => Some g
  | _ => None
  end.

(** The group lies on every path through the pattern. *)
Fixpoint setsGroup (r : regex) : bool :=
  match r with
  | Group _ => true
  | Seq r1 r2 => setsGroup r1 || setsGroup r2
  | Alt r1 r2 => setsGroup r1 && setsGroup r2
  | _ => false
  end.

Definition anyUnit (_ : N) : bool := true.   (* . under the s flag *)

(** [text] occurs somewhere in [s]. *)
Definition occurs (text s : jsstring) : Prop :=
  exists before after, s = before ++ text ++ after.

End Regex.

(** ** middleware/errorHandler.ts *)
Module ErrorHandler.
Import Js.

(** What the [instanceof] tests of the handler can tell about an error. *)
Inductive errorKind : Type :=
| PrismaKnownRequestError (target : value)   (* with its meta?.target *)
| PrismaValidationError
| SyntaxErrorKind (hasBody : bool)           (* 'body' in error *)
| OtherError.

(** [AppError]: an [Error] with the optional fields of the interface. *)
Record AppError : Type := mkAppError {
  kind : errorKind;
  name : jsstring;
  message : jsstring;
  stack : option jsstring;
  statusCode : option Z;
  code : option jsstring;
  details : option value;
  isOperational : option bool
}.

(** [new CustomError(message, statusCode = 500, code, details)].  The class
    does not set [name], so it stays the inherited "Error".  The stack it
    captures is text of the engine's and is left out: the statements below
    say nothing of the [stack] of an error made here. *)
Definition CustomError (message : jsstring) (statusCode : option Z)
    (code : option jsstring) (details : option value) : AppError :=
  {| kind := OtherError;
     name := js "Error";
     message := message;
     stack := None;
     statusCode := Some (default 500%Z statusCode);
     code := code;
     details := details;
     isOperational := Some true |}.

Definition ValidationError (message : jsstring) (details : option value) : AppError :=
  CustomError message (Some 400%Z) (Some (js "VALIDATION_ERROR")) details.

Definition AuthenticationError (message : jsstring) : AppError :=
  CustomError message (Some 401%Z) (Some (js "AUTHENTICATION_ERROR")) None.

Definition AuthorizationError (message : jsstring) : AppError :=
  CustomError message (Some 403%Z) (Some (js "AUTHORIZATION_ERROR")) None.

Definition NotFoundError (message : jsstring) : AppError :=
  CustomError message (Some 404%Z) (Some (js "NOT_FOUND_ERROR")) None.

Definition RateLimitError (message : jsstring) : AppError :=
  CustomError message (Some 429%Z) (Some (js "RATE_LIMIT_ERROR")) None.

Definition ExternalServiceError (service message : jsstring)
    (details : option value) : AppError :=
  CustomError (service ++ js " service error: " ++ message)
    (Some 502%Z) (Some (js "EXTERNAL_SERVICE_ERROR")) details.

(** [new Error(message)]; its stack is left out like that of a
    [CustomError]. *)
Definition PlainError (message : jsstring) : AppError :=
  {| kind := OtherError; name := js "Error"; message := message;
     stack := None; statusCode := None; code := None; details := None;
     isOperational := None |}.

(** How a call that may throw, or an awaited promise, ends. *)
Inductive settled (A : Type) : Type :=
| Fulfilled (a : A)
| Rejected (e : AppError).
Arguments Fulfilled {A} a.
Arguments Rejected {A} e.

(** The part of an Express request the handler reads. *)
Record Request : Type := mkRequest {
  path : jsstring;
  method : jsstring;
  headers : gmap jsstring value
}.

(** What [res.status(..).json(..)] sends. *)
Record Response : Type := mkResponse {
  status : Z;
  body : gmap jsstring value
}.

(** The environment of one call: [process.env.NODE_ENV] and the string
    [new Date().toISOString()] returns. *)
Record Env : Type := mkEnv {
  NODE_ENV : option jsstring;
  now : jsstring
}.

Definition isTruthy (v : option value) : bool :=
  match v with
  | Some v => truthy v
  | None => false
  end.

(** [JSON.stringify] leaves out the properties whose value is [undefined]. *)
Fixpoint jsonValue (v : value) : value :=
  match v with
  | VObject fields =>
      VObject
        ((fix go (fs : list (jsstring * value)) : list (jsstring * value) :=
            match fs with
            | [] => []
            | (k, VUndefined) :: fs' => go fs'
            | (k, v') :: fs' => (k, jsonValue v') :: go fs'
            end) fields)
  | _ => v
  end.

Definition jsonProperty (v : value) : option value :=
  match v with
  | VUndefined => None
  | _ => Some (jsonValue v)
  end.

Definition json (o : gmap jsstring value) : gmap jsstring value :=
  omap jsonProperty o.

Definition nameIs (error : AppError) (n : string) : bool :=
  bool_decide (name error = js n).

(** The first half of [errorHandler]: the tests run in sequence, each one
    overwriting [customError] when it applies. *)
Definition recognize (error : AppError) : AppError :=
  let customError := error in
  let customError :=
    match kind error with
    | PrismaKnownRequestError target =>
        if bool_decide (code error = Some (js "P2002")) then
          CustomError (js "Unique constraint violation") (Some 409%Z)
            (Some (js "DUPLICATE_ERROR")) (Some (VObject [(js "field", target)]))
        else if bool_decide (code error = Some (js "P2025")) then
          NotFoundError (js "Record not found")
        else if bool_decide (code error = Some (js "P2003")) then
          ValidationError (js "Foreign key constraint violation") None
        else if bool_decide (code error = Some (js "P2014")) then
          ValidationError (js "Required relation missing") None
        else
          CustomError (js "Database operation failed") (Some 500%Z)
            (Some (js "DATABASE_ERROR")) None
    | _ => customError
    end in
  let customError :=
    match kind error with
    | PrismaValidationError => ValidationError (js "Invalid data provided") None
    | _ => customError
    end in
  let customError :=
    if nameIs error "JsonWebTokenError"
    then AuthenticationError (js "Invalid token") else customError in
  let customError :=
    if nameIs error "TokenExpiredError"
    then AuthenticationError (js "Token expired") else customError in
  let customError :=
    if nameIs error "ValidationError"
    then ValidationError (message error) None else customError in
  let customError :=
    if nameIs error "CastError"
    then ValidationError (js "Invalid ID format") None else customError in
  let customError :=
    match kind error with
    | SyntaxErrorKind true => ValidationError (js "Invalid JSON format") None
    | _ => customError
    end in
  customError.

Definition orElse (s fallback : jsstring) : jsstring :=
  if bool_decide (s = []) then fallback else s.

(** [if (cond) { o[key] = v; }] *)
Definition assignIf (cond : bool) (key : jsstring) (v : value)
    (o : gmap jsstring value) : gmap jsstring value :=
  if cond then <[key := v]> o else o.

(** An absent optional value reads as [undefined]. *)
Definition orUndefined (v : option value) : value := default VUndefined v.

(** [errorHandler(error, req, res, next)]: the response it sends (the log
    entry it writes first is left out). *)
Definition errorHandler (env : Env) (error : AppError) (req : Request) : Response :=
  let customError := recognize error in
  let statusCode :=
    match statusCode customError with
    | Some n => if (n =? 0)%Z then 500%Z else n
    | None => 500%Z
    end in
  let code := orElse (default [] (code customError)) (js "INTERNAL_ERROR") in
  let message := orElse (message customError) (js "Something went wrong") in
  let errorResponse : gmap jsstring value :=
    <[js "method" := VString (method req)]>
    (<[js "path" := VString (path req)]>
    (<[js "timestamp" := VString (now env)]>
    (<[js "code" := VString code]>
    (<[js "error" := VString message]> ∅)))) in
  let requestId := orUndefined (headers req !! js "x-request-id") in
  let errorResponse :=
    assignIf (truthy requestId) (js "requestId") requestId errorResponse in
  let errorResponse :=
    assignIf (isTruthy (details customError)) (js "details")
      (orUndefined (details customError)) errorResponse in
  let errorResponse :=
    assignIf (bool_decide (NODE_ENV env = Some (js "development"))) (js "stack")
      (from_option VString VUndefined (stack error)) errorResponse in
  let errorResponse :=
    assignIf (statusCode =? 429)%Z (js "suggestion")
      (VString (js "Please try again after some time")) errorResponse in
  let errorResponse :=
    assignIf (statusCode =? 403)%Z (js "suggestion")
      (VString (js "Check your permissions or upgrade your plan")) errorResponse in
  let errorResponse :=
    assignIf (statusCode =? 404)%Z (js "suggestion")
      (VString (js "Verify the resource exists and the URL is correct")) errorResponse in
  {| status := statusCode; body := json errorResponse |}.

(** [notFoundHandler]: the error it hands to [next], for a request whose
    [originalUrl] is given. *)
Definition notFoundHandler (originalUrl : jsstring) (req : Request) : AppError :=
  NotFoundError (js "Route " ++ method req ++ js " " ++ originalUrl ++ js " not found").

(** [developmentErrorHandler]: it answers with the error as it came, no test
    applied; [url], [reqBody], [params] and [query] are the request's. *)
Definition developmentErrorHandler (env : Env) (error : AppError)
    (url : jsstring) (reqBody params query : value) (req : Request) : Response :=
  let customError := error in
  {| status :=
       match statusCode customError with
       | Some n => if (n =? 0)%Z then 500%Z else n
       | None => 500%Z
       end;
     body := json
       (<[js "timestamp" := VString (now env)]>
       (<[js "query" := query]>
       (<[js "params" := params]>
       (<[js "body" := reqBody]>
       (<[js "method" := VString (method req)]>
       (<[js "url" := VString url]>
       (<[js "details" := orUndefined (details customError)]>
       (<[js "stack" := from_option VString VUndefined (stack error)]>
       (<[js "code" := VString (orElse (default [] (code customError))
                                       (js "INTERNAL_ERROR"))]>
       (<[js "error" := VString (message customError)]> ∅)))))))))) |}.

(** One of the tests of [recognize] applies. *)
Definition recognized (error : AppError) : bool :=
  match kind error with
  | PrismaKnownRequestError _ | PrismaValidationError | SyntaxErrorKind true => true
  | SyntaxErrorKind false | OtherError => false
  end
  || nameIs error "JsonWebTokenError" || nameIs error "TokenExpiredError"
  || nameIs error "ValidationError" || nameIs error "CastError".

End ErrorHandler.

(** ** config/index.ts: the pricing plans *)
Module Config.
Import Js.

Record PlanFeatures : Type := mkPlanFeatures {
  products : Z;
  descriptions : Z;
  languages : Z;
  support : jsstring;
  customTone : bool;
  seoOptimization : bool;
  bulkGeneration : bool;
  customTraining : option bool;
  apiAccess : option bool
}.

Record Plan : Type := mkPlan {
  name : jsstring;
  price : Z;
  currency : jsstring;
  interval : jsstring;
  features : PlanFeatures
}.

Record Plans : Type := mkPlans {
  basic : Plan;
  pro : Plan;
  enterprise : Plan
}.

Definition plans : Plans :=
  {| basic :=
       {| name := js "Basic"; price := 29; currency := js "usd"; interval := js "month";
          features :=
            {| products := 500; descriptions := 1000; languages := 1;
               support := js "email"; customTone := false;
               seoOptimization := true; bulkGeneration := false;
               customTraining := None; apiAccess := None |} |};
     pro :=
       {| name := js "Pro"; price := 79; currency := js "usd"; interval := js "month";
          features :=
            {| products := 2000; descriptions := 5000; languages := 5;
               support := js "priority"; customTone := true;
               seoOptimization := true; bulkGeneration := true;
               customTraining := None; apiAccess := None |} |};
     enterprise :=
       {| name := js "Enterprise"; price := 199; currency := js "usd"; interval := js "month";
          features :=
            {| products := -1; descriptions := -1; languages := 10;
               support := js "dedicated"; customTone := true;
               seoOptimization := true; bulkGeneration := true;
               customTraining := Some true; apiAccess := Some true |} |} |}.

(** [validateConfig], reading [process.env]: a variable that is unset or
    empty is missing. *)
Definition requiredVariables : list jsstring :=
  [js "JWT_SECRET"; js "DATABASE_URL"; js "OPENAI_API_KEY"; js "STRIPE_SECRET_KEY"].

Definition isSet (env : gmap jsstring jsstring) (key : jsstring) : bool :=
  match env !! key with
  | Some (_ :: _) => true
  | Some [] | None => false
  end.

(** [Object.entries(config.plans)] *)
Definition planEntries : list (jsstring * Plan) :=
  [ (js "basic", basic plans); (js "pro", pro plans);
    (js "enterprise", enterprise plans) ].

Definition validateConfig (env : gmap jsstring jsstring) : ErrorHandler.settled unit :=
  let missing := filter (fun key => isSet env key = false) requiredVariables in
  if bool_decide (0 < length missing) then
    ErrorHandler.Rejected
      (ErrorHandler.PlainError
         (js "Missing required environment variables: " ++ join (js ", ") missing))
  else
    match find (fun entry => (price entry.2 <=? 0)%Z) planEntries with
    | Some (planName, _) =>
        ErrorHandler.Rejected
          (ErrorHandler.PlainError (js "Invalid price for plan " ++ planName))
    | None => ErrorHandler.Fulfilled tt
    end.

End Config.

(** ** services/openaiService.ts *)
Module OpenAI.
Import Js Regex ErrorHandler.

Inductive Tone : Type := professional | casual | friendly | formal | playful | luxury.

Module GenerationOptions.
Record t : Type := mk {
  tone : option Tone;
  language : option jsstring;
  keywords : option (list jsstring);
  wordCount : option Z;
  seoOptimization : option bool;
  includeFeatures : option bool;
  includeBenefits : option bool;
  customPrompt : option jsstring
}.
End GenerationOptions.

Module GeneratedDescription.
Record t : Type := mk {
  content : jsstring;
  wordCount : nat;
  seoScore : option N;
  keywords : option (list jsstring);
  metaDescription : option jsstring;
  titleTag : option jsstring
}.
End GeneratedDescription.

(** The product objects handed to the service. *)
Record Product : Type := mkProduct {
  id : jsstring;
  title : jsstring;
  existingDescription : option jsstring;
  vendor : option jsstring;
  productType : option jsstring;
  tags : option (list jsstring);
  images : option (list jsstring)
}.

(** One entry of [BatchGenerationResult.results]. *)
Record Outcome : Type := mkOutcome {
  productId : jsstring;
  success : bool;
  description : option GeneratedDescription.t;
  error : option jsstring
}.

(** The counters hold array lengths, far below 2^53, where [++] on a double
    is exact: they are natural numbers here. *)
Record BatchGenerationResult : Type := mkBatchGenerationResult {
  total : nat;
  successful : nat;
  failed : nat;
  results : list Outcome
}.

(** What [await this.client.chat.completions.create(..)] gives: the text at
    [choices[0]?.message?.content] (absent when any link of the chain is),
    or the error the client throws.  The prompt built from the product
    decides nothing in this file: the reply is the environment's. *)
Definition Reply : Type := settled (option jsstring).

(** *** The patterns of [parseResponse] *)

(** [/\*\*<label>\*\*\s*\n(.*?)(?=\n\*\*|$)/s] *)
Definition sectionPattern (label : string) : regex :=
  Seq (Lit (js "**" ++ js label ++ js "**"))
 (Seq (StarGreedy isWhiteSpace)
 (Seq (Lit [LF])
 (Seq (Group (StarLazy anyUnit))
      (LookAhead (Alt (Lit (LF :: js "**")) EndAnchor))))).

Definition descriptionPattern : regex := sectionPattern "Product Description:".
Definition keywordsPattern : regex := sectionPattern "Keywords Used:".
Definition metaPattern : regex := sectionPattern "Meta Description:".
Definition titlePattern : regex := sectionPattern "Title Tag:".

(** [/\*\*SEO Score:\*\*\s*(\d+)/] *)
Definition seoPattern : regex :=
  Seq (Lit (js "**SEO Score:**"))
 (Seq (StarGreedy isWhiteSpace)
      (Group (PlusGreedy isDigit))).

(** Where the look-ahead [(?=\n\*\*|$)] of a section pattern holds: at the
    end of the text, or before a line that begins with two asterisks. *)
Definition atStop (s : jsstring) : Prop :=
  s = [] \/ exists t, s = LF :: js "**" ++ t.

Definition parseResponse (content : jsstring) (productData : Product)
    (options : GenerationOptions.t) : GeneratedDescription.t :=
  let descriptionMatch := match1 descriptionPattern content in
  let description :=
    match descriptionMatch with
    | Some g => trim g
    | None => content
    end in
  let keywordsMatch := match1 keywordsPattern content in
  let keywords :=
    match keywordsMatch with
    | Some g => map trim (split 44 g)
    | None => default [] (GenerationOptions.keywords options)
    end in
  let seoMatch := match1 seoPattern content in
  let seoScore := parseInt <$> seoMatch in
  let metaMatch := match1 metaPattern content in
  let metaDescription := trim <$> metaMatch in
  let titleMatch := match1 titlePattern content in
  let titleTag := trim <$> titleMatch in
  {| GeneratedDescription.content := description;
     GeneratedDescription.wordCount := length (splitWhiteSpace description);
     GeneratedDescription.seoScore := seoScore;
     GeneratedDescription.keywords := Some keywords;
     GeneratedDescription.metaDescription := metaDescription;
     GeneratedDescription.titleTag := titleTag |}.

(** An error object passed on as [details]: an object.  Which of its fields
    the client's error class makes enumerable is the library's affair; the
    statements below use only that it is an object. *)
Definition asValue (e : AppError) : value :=
  VObject [ (js "message", VString (message e));
            (js "code", from_option VString VUndefined (code e)) ].

(** [generateDescription], given the reply of its one completion call.
    Reading the options, building the prompt and logging decide nothing of
    the result and are left out. *)
Definition generateDescription (reply : Reply) (productData : Product)
    (options : GenerationOptions.t) : settled GeneratedDescription.t :=
  let attempt : settled GeneratedDescription.t :=          (* try *)
    match reply with
    | Rejected e => Rejected e
    | Fulfilled completion =>
        match trim <$> completion with
        | Some (c :: rest) =>
            Fulfilled (parseResponse (c :: rest) productData options)
        | Some [] | None =>                                (* !content *)
            Rejected (PlainError (js "No content generated from OpenAI"))
        end
    end in
  match attempt with
  | Fulfilled result => Fulfilled result
  | Rejected error =>                                      (* catch *)
      if bool_decide (code error = Some (js "insufficient_quota")) then
        Rejected (ExternalServiceError (js "OpenAI") (js "API quota exceeded")
                    (Some (asValue error)))
      else if bool_decide (code error = Some (js "rate_limit_exceeded")) then
        Rejected (ExternalServiceError (js "OpenAI") (js "Rate limit exceeded")
                    (Some (asValue error)))
      else
        Rejected (ExternalServiceError (js "OpenAI") (js "Failed to generate description")
                    (Some (VObject [ (js "error", VString (message error));
                                     (js "productTitle", VString (title productData)) ])))
  end.

(** *** [batchGenerateDescriptions] *)

Definition batchSize : nat := 5.

(** [l.slice(i, j)] for [i <= j]. *)
Definition slice {A} (i j : nat) (l : list A) : list A := take (j - i) (drop i l).

(** The body of the callback given to [batch.map], run when the awaited
    [generateDescription] has settled: it bumps one counter of the shared
    [results] object and returns the entry of its product. *)
Definition settle (reply : Reply) (product : Product) (options : GenerationOptions.t)
    (results : BatchGenerationResult) : BatchGenerationResult * Outcome :=
  match generateDescription reply product options with
  | Fulfilled description =>
      ({| total := total results; successful := S (successful results);
          failed := failed results; results := OpenAI.results results |},
       {| productId := id product; success := true;
          description := Some description; error := None |})
  | Rejected e =>
      ({| total := total results; successful := successful results;
          failed := S (failed results); results := OpenAI.results results |},
       {| productId := id product; success := false;
          description := None; error := Some (message e) |})
  end.

(** [results.results.push(...batchResults)] *)
Definition push (results : BatchGenerationResult) (batchResults : list Outcome)
    : BatchGenerationResult :=
  {| total := total results; successful := successful results;
     failed := failed results; results := OpenAI.results results ++ batchResults |}.

(** One chunk with its callbacks run in index order.  [replies k] is the
    reply to the call made for the product at index [k] of the input. *)
Fixpoint runBatch (replies : nat -> Reply) (options : GenerationOptions.t)
    (i : nat) (batch : list Product) (results : BatchGenerationResult)
    : BatchGenerationResult * list Outcome :=
  match batch with
  | [] => (results, [])
  | product :: batch' =>
      let '(results, entry) := settle (replies i) product options results in
      let '(results, entries) := runBatch replies options (S i) batch' results in
      (results, entry :: entries)
  end.

(** The [for] loop; [fuel] bounds the number of iterations and [None] means
    it ran out. *)
Fixpoint loop (fuel : nat) (replies : nat -> Reply) (products : list Product)
    (options : GenerationOptions.t) (i : nat) (results : BatchGenerationResult)
    : option BatchGenerationResult :=
  match fuel with
  | O => None
  | S fuel' =>
      if bool_decide (i < length products) then
        let batch := slice i (i + batchSize) products in
        let '(results, batchResults) := runBatch replies options i batch results in
        loop fuel' replies products options (i + batchSize) (push results batchResults)
      else Some results
  end.

Definition initial (products : list Product) : BatchGenerationResult :=
  {| total := length products; successful := 0; failed := 0; results := [] |}.

Definition batchGenerateDescriptions (replies : nat -> Reply)
    (products : list Product) (options : GenerationOptions.t)
    : option BatchGenerationResult :=
  loop (S (length products)) replies products options 0 (initial products).

(** *** The same loop, one event at a time

    Entering an iteration, [batch.map] calls [generateDescription] once for
    every product of the chunk; the awaited calls then settle in any order,
    each settlement running its callback; [Promise.all] resumes the loop
    once every slot of the chunk holds its entry. *)

Inductive slot : Type :=
| Pending (index : nat) (product : Product)
| Done (entry : Outcome).

Inductive control : Type :=
| LoopHead (i : nat)
| Awaiting (i : nat) (slots : list slot)
| Returned.

(** [issued] lists the input indices [generateDescription] was called
    for, in call order; [job] is the shared [results] object. *)
Record state : Type := mkState {
  pc : control;
  issued : list nat;
  job : BatchGenerationResult
}.

Inductive step (replies : nat -> Reply) (products : list Product)
    (options : GenerationOptions.t) : state -> state -> Prop :=
| step_enter i issued job :
    i < length products ->
    let batch := slice i (i + batchSize) products in
    step replies products options
      (mkState (LoopHead i) issued job)
      (mkState (Awaiting i (imap (fun j product => Pending (i + j) product) batch))
               (issued ++ seq i (length batch)) job)
| step_exit i issued job :
    ~ i < length products ->
    step replies products options
      (mkState (LoopHead i) issued job) (mkState Returned issued job)
| step_settle i before index product after issued job job' entry :
    settle (replies index) product options job = (job', entry) ->
    step replies products options
      (mkState (Awaiting i (before ++ Pending index product :: after)) issued job)
      (mkState (Awaiting i (before ++ Done entry :: after)) issued job')
| step_barrier i batchResults issued job :
    step replies products options
      (mkState (Awaiting i (Done <$> batchResults)) issued job)
      (mkState (LoopHead (i + batchSize)) issued (push job batchResults)).

Definition start (products : list Product) : state :=
  mkState (LoopHead 0) [] (initial products).

(** The states an execution passes through. *)
Definition reachable (replies : nat -> Reply) (products : list Product)
    (options : GenerationOptions.t) (s : state) : Prop :=
  rtc (step replies products options) (start products) s.

(** *** What the properties are stated with *)

(** The entry the callback returns for the product at input index [k]. *)
Definition entryOf (replies : nat -> Reply) (options : GenerationOptions.t)
    (k : nat) (product : Product) : Outcome :=
  (settle (replies k) product options (initial [])).2.

(** A list with the input index of each element, counting from [i]. *)
Definition indexed {A} (i : nat) (l : list A) : list (nat * A) :=
  zip (seq i (length l)) l.

Definition entriesFrom (replies : nat -> Reply) (options : GenerationOptions.t)
    (i : nat) (l : list Product) : list Outcome :=
  uncurry (entryOf replies options) <$> indexed i l.

Definition successes (entries : list Outcome) : nat :=
  length (filter (fun entry => success entry = true) entries).

Definition failures (entries : list Outcome) : nat :=
  length (filter (fun entry => success entry = false) entries).

(** The [results] object once the first [n] products are accounted for. *)
Definition summary (replies : nat -> Reply) (products : list Product)
    (options : GenerationOptions.t) (n : nat) : BatchGenerationResult :=
  let entries := take n (entriesFrom replies options 0 products) in
  {| total := length products; successful := successes entries;
     failed := failures entries; results := entries |}.

(** The entries a chunk's slots hold so far. *)
Definition doneOf (slots : list slot) : list Outcome :=
  omap (fun sl => match sl with Done entry => Some entry | Pending _ _ => None end) slots.

(** A slot of the chunk agrees with the product at its input index: it is
    still pending, or it holds that product's entry. *)
Definition slotOk (replies : nat -> Reply) (options : GenerationOptions.t)
    (sl : slot) (item : nat * Product) : Prop :=
  sl = Pending item.1 item.2 \/ sl = Done (entryOf replies options item.1 item.2).

(** The invariant of the event model. *)
Definition invariant (replies : nat -> Reply) (products : list Product)
    (options : GenerationOptions.t) (s : state) : Prop :=
  let entries := entriesFrom replies options 0 products in
  match pc s with
  | LoopHead i =>
      (batchSize | i)
      /\ job s = summary replies products options i
      /\ issued s = seq 0 (i `min` length products)
  | Awaiting i slots =>
      (batchSize | i)
      /\ i < length products
      /\ Forall2 (slotOk replies options) slots
                 (indexed i (slice i (i + batchSize) products))
      /\ total (job s) = length products
      /\ results (job s) = take i entries
      /\ successful (job s) = successes (take i entries) + successes (doneOf slots)
      /\ failed (job s) = failures (take i entries) + failures (doneOf slots)
      /\ issued s = seq 0 ((i + batchSize) `min` length products)
  | Returned =>
      job s = summary replies products options (length products)
      /\ issued s = seq 0 (length products)
  end.

(** *** [calculateCost] *)

Record Pricing : Type := mkPricing { input : float; output : float }.

Definition pricing : gmap jsstring Pricing :=
  {[ js "gpt-4" := {| input := 0.03; output := 0.06 |};
     js "gpt-4-turbo" := {| input := 0.01; output := 0.03 |};
     js "gpt-3.5-turbo" := {| input := 0.001; output := 0.002 |} ]}.

(** [modelPricing.input] as a number: an inherited member of
    [Object.prototype] has no such property, and [undefined] is [NaN] in
    arithmetic. *)
Definition numberOf (field : Pricing -> float) (modelPricing : property Pricing) : float :=
  match modelPricing with
  | Own entry => field entry
  | Inherited | Missing => nan
  end.

Definition calculateCost (tokenCount : float) (model : option jsstring) : float :=
  let model := default (js "gpt-4") model in
  let modelPricing :=
    match getProperty pricing model with
    | Missing => getProperty pricing (js "gpt-4")       (* || pricing['gpt-4'] *)
    | found => found
    end in
  let inputTokens := ceil (tokenCount * 0.7) in
  let outputTokens := ceil (tokenCount * 0.3) in
  ((inputTokens * numberOf input modelPricing
    + outputTokens * numberOf output modelPricing) / 1000)%float.

End OpenAI.

(** ** middleware/auth.ts: [requireFeature] *)
Module Auth.
Import Js ErrorHandler.

(** [req.user], as [authenticateToken] attaches it. *)
Record User : Type := mkUser {
  id : jsstring;
  email : jsstring;
  plan : jsstring;
  subscriptionStatus : jsstring
}.

(** How a middleware call ends. *)
Inductive outcome : Type :=
| Next                        (* next() *)
| Responds (res : Response)   (* res.status(..).json(..) and return *)
| Throws (e : AppError).      (* an exception leaves the middleware *)

Definition planFeatures : gmap jsstring (list jsstring) :=
  {[ js "basic" := [js "seoOptimization"; js "bulkGeneration"];
     js "pro" := [js "seoOptimization"; js "bulkGeneration"; js "customTone";
                  js "multiLanguage"];
     js "enterprise" := [js "seoOptimization"; js "bulkGeneration"; js "customTone";
                         js "multiLanguage"; js "customTraining"; js "apiAccess"] ]}.

Definition TypeError (message : jsstring) : AppError :=
  {| kind := OtherError; name := js "TypeError"; message := message;
     stack := None; statusCode := None; code := None; details := None;
     isOperational := None |}.

Definition featureNotAvailable (feature : jsstring) (user : User) : Response :=
  {| status := 403;
     body := json
       (<[js "currentPlan" := VString (plan user)]>
       (<[js "feature" := VString feature]>
       (<[js "details" := VString (js "This feature is not available in your current plan")]>
       (<[js "code" := VString (js "FEATURE_NOT_AVAILABLE")]>
       (<[js "error" := VString (js "Feature not available")]> ∅))))) |}.

Definition authRequired : Response :=
  {| status := 401;
     body := json
       (<[js "code" := VString (js "AUTH_REQUIRED")]>
       (<[js "error" := VString (js "Authentication required")]> ∅)) |}.

(** [requireFeature(feature)] applied to a request with [req.user = user].
    [planFeatures[plan] || []] is the plan's array, the empty array for an
    unknown plan, and for a name inherited from [Object.prototype] a
    function or object, on which [.includes] is not callable. *)
Definition requireFeature (feature : jsstring) (user : option User) : outcome :=
  match user with
  | None => Responds authRequired
  | Some user =>
      match getProperty planFeatures (plan user) with
      | Inherited => Throws (TypeError (js "userFeatures.includes is not a function"))
      | found =>
          let userFeatures :=
            match found with
            | Own features => features
            | _ => []
            end in
          if negb (includes feature userFeatures)
          then Responds (featureNotAvailable feature user)
          else Next
      end
  end.

(** *** [requirePlan] *)

Definition planHierarchy : gmap jsstring float :=
  {[ js "basic" := 0%float; js "pro" := 1%float; js "enterprise" := 2%float ]}.

(** What [planHierarchy[plan] || -1] is: a number, or a member of
    [Object.prototype] (a function or an object, which is truthy). *)
Inductive level : Type :=
| Level (n : float)
| InheritedMember (key : jsstring).

Definition planLevel (plan : jsstring) : level :=
  match getProperty planHierarchy plan with
  | Own n =>
      if PrimFloat.eqb n 0 || negb (PrimFloat.eqb n n)      (* 0 and NaN are falsy *)
      then Level (-1)%float else Level n
  | Inherited => InheritedMember plan
  | Missing => Level (-1)%float
  end.

Definition upgradeRequired (requiredPlan : jsstring) (user : User) : Response :=
  {| status := 403;
     body := json
       (<[js "requiredPlan" := VString requiredPlan]>
       (<[js "currentPlan" := VString (plan user)]>
       (<[js "details" :=
            VString (js "This feature requires " ++ requiredPlan ++ js " plan or higher")]>
       (<[js "code" := VString (js "UPGRADE_REQUIRED")]>
       (<[js "error" := VString (js "Upgrade required")]> ∅))))) |}.

Section RequirePlan.
(** [a < b] on two members of [Object.prototype] compares the texts the
    engine prints for them; which one comes first is the engine's affair. *)
Variable inheritedLess : jsstring -> jsstring -> bool.

(** [userPlanLevel < requiredPlanLevel]: an object next to a number turns
    into [NaN], and no comparison with [NaN] holds. *)
Definition lessThan (a b : level) : bool :=
  match a, b with
  | Level x, Level y => PrimFloat.ltb x y
  | InheritedMember k1, InheritedMember k2 => inheritedLess k1 k2
  | Level _, InheritedMember _ | InheritedMember _, Level _ => false
  end.

(** [requirePlan(requiredPlan)] applied to a request with [req.user = user]. *)
Definition requirePlan (requiredPlan : jsstring) (user : option User) : outcome :=
  match user with
  | None => Responds authRequired
  | Some user =>
      let userPlanLevel := planLevel (plan user) in
      let requiredPlanLevel := planLevel requiredPlan in
      if lessThan userPlanLevel requiredPlanLevel
      then Responds (upgradeRequired requiredPlan user)
      else Next
  end.
End RequirePlan.

(** *** [authenticateToken] and [optionalAuth] *)

(** The columns [prisma.user.findUnique] selects. *)
Record DbUser : Type := mkDbUser {
  dbId : jsstring;
  dbEmail : jsstring;
  dbPlan : jsstring;
  dbSubscriptionStatus : jsstring;
  dbSubscriptionId : option jsstring
}.

(** How the two authenticating middlewares end: [next()] with what they
    left in [req.user], or a response. *)
Inductive authOutcome : Type :=
| Proceeds (user : option User)
| Answers (res : Response).

Definition errorResponse (statusCode : Z) (error code : string) : Response :=
  {| status := statusCode;
     body := json (<[js "code" := VString (js code)]>
                   (<[js "error" := VString (js error)]> ∅)) |}.

Definition subscriptionRequired : Response :=
  {| status := 403;
     body := json
       (<[js "details" :=
            VString (js "Please activate your subscription to access this feature")]>
       (<[js "code" := VString (js "SUBSCRIPTION_REQUIRED")]>
       (<[js "error" := VString (js "Subscription required")]> ∅))) |}.

Definition publicEndpoints : list jsstring :=
  [js "/api/auth/refresh"; js "/api/auth/profile"].

(** [authHeader && authHeader.split(' ')[1]]: the second of the pieces
    between spaces.  A header that is no string and is truthy has no
    [split]; [None] stands for a missing piece. *)
Definition tokenOf (authHeader : option value) : settled (option jsstring) :=
  match authHeader with
  | Some (VString s) =>
      match s with
      | [] => Fulfilled None
      | _ :: _ => Fulfilled (split 32 s !! 1)
      end
  | Some v =>
      if truthy v
      then Rejected (TypeError (js "authHeader.split is not a function"))
      else Fulfilled None
  | None => Fulfilled None
  end.

(** [decoded.userId] on what [jwt.verify] returned. *)
Definition userIdOf (decoded : value) : settled value :=
  match decoded with
  | VUndefined | VNull =>
      Rejected (TypeError (js "Cannot read properties of undefined (reading 'userId')"))
  | VObject fields => Fulfilled (default VUndefined (snd <$> find (fun kv => bool_decide (kv.1 = js "userId")) fields))
  | _ => Fulfilled VUndefined
  end.

Definition attach (user : DbUser) : User :=
  {| id := dbId user; email := dbEmail user; plan := dbPlan user;
     subscriptionStatus := dbSubscriptionStatus user |}.

Section Authenticate.
(** [jwt.verify], [prisma.user.findUnique] by id, the two [instanceof]
    tests on what was thrown, and [config.jwtSecret]. *)
Variable verify : jsstring -> jsstring -> settled value.
Variable findUnique : value -> settled (option DbUser).
Variable isJsonWebTokenError : AppError -> bool.
Variable isTokenExpiredError : AppError -> bool.
Variable jwtSecret : jsstring.

(** The [try] block up to the user record: the token, verified, and the
    user looked up by the id it carries. *)
Definition lookupUser (token : jsstring) : settled (option DbUser) :=
  match verify token jwtSecret with
  | Rejected e => Rejected e
  | Fulfilled decoded =>
      match userIdOf decoded with
      | Rejected e => Rejected e
      | Fulfilled userId => findUnique userId
      end
  end.

Definition authenticateToken (req : Request) : authOutcome :=
  let attempt : settled authOutcome :=                         (* try *)
    match tokenOf (headers req !! js "authorization") with
    | Rejected e => Rejected e
    | Fulfilled None | Fulfilled (Some []) =>
        Fulfilled (Answers (errorResponse 401 "Access token required" "TOKEN_MISSING"))
    | Fulfilled (Some (c :: rest)) =>
        match lookupUser (c :: rest) with
        | Rejected e => Rejected e
        | Fulfilled None =>
            Fulfilled (Answers (errorResponse 401 "User not found" "USER_NOT_FOUND"))
        | Fulfilled (Some user) =>
            if negb (includes (path req) publicEndpoints)
               && negb (bool_decide (dbSubscriptionStatus user = js "active"))
            then Fulfilled (Answers subscriptionRequired)
            else Fulfilled (Proceeds (Some (attach user)))
        end
    end in
  match attempt with
  | Fulfilled out => out
  | Rejected error =>                                          (* catch *)
      if isJsonWebTokenError error
      then Answers (errorResponse 401 "Invalid token" "TOKEN_INVALID")
      else if isTokenExpiredError error
      then Answers (errorResponse 401 "Token expired" "TOKEN_EXPIRED")
      else Answers (errorResponse 500 "Authentication failed" "AUTH_ERROR")
  end.

Definition optionalAuth (req : Request) : authOutcome :=
  let attempt : settled authOutcome :=                         (* try *)
    match tokenOf (headers req !! js "authorization") with
    | Rejected e => Rejected e
    | Fulfilled None | Fulfilled (Some []) => Fulfilled (Proceeds None)
    | Fulfilled (Some (c :: rest)) =>
        match lookupUser (c :: rest) with
        | Rejected e => Rejected e
        | Fulfilled None => Fulfilled (Proceeds None)
        | Fulfilled (Some user) => Fulfilled (Proceeds (Some (attach user)))
        end
    end in
  match attempt with
  | Fulfilled out => out
  | Rejected _ => Proceeds None                                (* catch *)
  end.
End Authenticate.

End Auth.

(** ** config/redis.ts: [rateLimiter.check] *)
Module Redis.
Import Js ErrorHandler.

Module rateLimiter.
Section Commands.
(** The Redis client with the server behind it, and the two commands the
    limiter sends; a command may throw.  [toString] is the conversion
    of a number inside a template literal. *)
Variable Client : Type.
Variable incr : Client -> jsstring -> settled float * Client.
Variable expire : Client -> jsstring -> float -> settled bool * Client.
Variable toString : float -> jsstring.

(** The key of the current window: [`${key}:${window}`] when [Date.now()]
    reads [dateNow]. *)
Definition redisKey (dateNow : float) (key : jsstring) (windowSeconds : float)
    : jsstring :=
  let now := floor (dateNow / 1000)%float in
  let window := floor (now / windowSeconds)%float in
  key ++ js ":" ++ toString window.

(** [rateLimiter.check(key, limit, windowSeconds)]; an error caught is
    written to the console and the request allowed. *)
Definition check (dateNow : float) (key : jsstring) (limit windowSeconds : float)
    (client : Client) : bool * Client :=
  let redisKey := redisKey dateNow key windowSeconds in
  match incr client redisKey with
  | (Fulfilled current, client) =>
      if PrimFloat.eqb current 1 then
        match expire client redisKey windowSeconds with
        | (Fulfilled _, client) => (PrimFloat.leb current limit, client)
        | (Rejected _, client) => (true, client)        (* Allow on error *)
        end
      else (PrimFloat.leb current limit, client)
  | (Rejected _, client) => (true, client)              (* Allow on error *)
  end.

End Commands.
End rateLimiter.

End Redis.

(** ** The log *)
Module Webhooks.
Import Js ErrorHandler.

(** [logger.error(label, error)]: one more line in the log. *)
Definition logError (label : string) (error : AppError) (log : list jsstring)
    : list jsstring :=
  log ++ [js label ++ js " " ++ message error].

End Webhooks.

(** ** services/stripeService.ts: [verifyWebhook] *)
Module StripeService.
Import Js ErrorHandler Webhooks.

Section VerifyWebhook.
(** [Stripe.Event], and the library's [stripe.webhooks.constructEvent],
    which throws when the signature does not match the payload. *)
Variable Event : Type.
Variable constructEvent : jsstring -> jsstring -> jsstring -> settled Event.
Variable webhookSecret : jsstring.            (* config.stripe.webhookSecret *)

Definition verifyWebhook (payload signature : jsstring) (log : list jsstring)
    : option Event * list jsstring :=
  match constructEvent payload signature webhookSecret with
  | Fulfilled event => (Some event, log)
  | Rejected error => (None, logError "Failed to verify Stripe webhook:" error log)
  end.
End VerifyWebhook.

End StripeService.

(** ** services/shopifyService.ts *)
Module ShopifyService.
Import Js ErrorHandler Webhooks.

Section VerifyWebhook.
(** [createHmac('sha256', secret)], [update(rawBody, 'utf8')] and
    [digest('base64')] in one. *)
Variable hmacSha256Base64 : jsstring -> jsstring -> settled jsstring.

Definition verifyWebhook (rawBody signature secret : jsstring) (log : list jsstring)
    : bool * list jsstring :=
  match hmacSha256Base64 secret rawBody with
  | Fulfilled hash => (bool_decide (hash = signature), log)
  | Rejected error => (false, logError "Failed to verify webhook signature:" error log)
  end.
End VerifyWebhook.

(** *** [updateProductDescription] and [bulkUpdateProductDescriptions] *)

Module Update.
Record t : Type := mk {
  productId : jsstring;
  description : jsstring
}.
End Update.

(** One entry of [results.errors]. *)
Module UpdateError.
Record t : Type := mk {
  productId : jsstring;
  error : jsstring
}.
End UpdateError.

Record BulkUpdateResult : Type := mkBulkUpdateResult {
  success : nat;
  failed : nat;
  errors : list UpdateError.t
}.

Section BulkUpdate.
(** The product a store returns; the service only passes it on. *)
Variable ShopifyProduct : Type.

(** [updateProductDescription], given how its one [client.put] ended
    ([response.body.product], or what the client threw). *)
Definition updateProductDescription (reply : settled ShopifyProduct)
    (productId description : jsstring) : settled ShopifyProduct :=
  match reply with
  | Fulfilled product => Fulfilled product
  | Rejected error =>
      Rejected (ExternalServiceError (js "Shopify") (js "Failed to update product")
                  (Some (VObject [ (js "productId", VString productId);
                                   (js "error", VString (message error)) ])))
  end.

(** What a callback of [batch.map] resolves to. *)
Record PromiseResult : Type := mkPromiseResult {
  resultSuccess : bool;
  resultError : option AppError
}.

(** The body of the callback, run when its awaited update has settled. *)
Definition settle (reply : settled ShopifyProduct) (update : Update.t)
    (results : BulkUpdateResult) : BulkUpdateResult * PromiseResult :=
  match updateProductDescription reply (Update.productId update)
          (Update.description update) with
  | Fulfilled _ =>
      ({| success := S (success results); failed := failed results;
          errors := errors results |},
       {| resultSuccess := true; resultError := None |})
  | Rejected error =>
      ({| success := success results; failed := S (failed results);
          errors := errors results
                    ++ [ {| UpdateError.productId := Update.productId update;
                            UpdateError.error := message error |} ] |},
       {| resultSuccess := false; resultError := Some error |})
  end.

Definition batchSize : nat := 5.

(** One chunk with its callbacks run in index order; [replies k] is how the
    update at index [k] of the input ends. *)
Fixpoint runBatch (replies : nat -> settled ShopifyProduct) (i : nat)
    (batch : list Update.t) (results : BulkUpdateResult) : BulkUpdateResult :=
  match batch with
  | [] => results
  | update :: batch' =>
      runBatch replies (S i) batch' (settle (replies i) update results).1
  end.

(** The [for] loop; [None] means the fuel ran out. *)
Fixpoint loop (fuel : nat) (replies : nat -> settled ShopifyProduct)
    (updates : list Update.t) (i : nat) (results : BulkUpdateResult)
    : option BulkUpdateResult :=
  match fuel with
  | O => None
  | S fuel' =>
      if bool_decide (i < length updates) then
        let batch := OpenAI.slice i (i + batchSize) updates in
        loop fuel' replies updates (i + batchSize) (runBatch replies i batch results)
      else Some results
  end.

Definition bulkUpdateProductDescriptions (replies : nat -> settled ShopifyProduct)
    (updates : list Update.t) : option BulkUpdateResult :=
  loop (S (length updates)) replies updates 0
    {| success := 0; failed := 0; errors := [] |}.

(** The same loop, one event at a time: the updates of a chunk settle in
    any order, and [Promise.all] resumes the loop when all have.  The pause
    between chunks changes nothing the loop holds and is not an event. *)
Inductive slot : Type :=
| Pending (index : nat) (update : Update.t)
| Done (result : PromiseResult).

Inductive control : Type :=
| LoopHead (i : nat)
| Awaiting (i : nat) (slots : list slot)
| Returned.

Record state : Type := mkState {
  pc : control;
  job : BulkUpdateResult
}.

Inductive step (replies : nat -> settled ShopifyProduct) (updates : list Update.t)
    : state -> state -> Prop :=
| step_enter i job :
    i < length updates ->
    step replies updates
      (mkState (LoopHead i) job)
      (mkState (Awaiting i (imap (fun j update => Pending (i + j) update)
                                 (OpenAI.slice i (i + batchSize) updates))) job)
| step_exit i job :
    ~ i < length updates ->
    step replies updates (mkState (LoopHead i) job) (mkState Returned job)
| step_settle i before index update after job :
    step replies updates
      (mkState (Awaiting i (before ++ Pending index update :: after)) job)
      (mkState (Awaiting i (before ++ Done (settle (replies index) update job).2 :: after))
               (settle (replies index) update job).1)
| step_barrier i batchResults job :
    step replies updates
      (mkState (Awaiting i (Done <$> batchResults)) job)
      (mkState (LoopHead (i + batchSize)) job).

Definition reachable (replies : nat -> settled ShopifyProduct) (updates : list Update.t)
    (s : state) : Prop :=
  rtc (step replies updates)
      (mkState (LoopHead 0) {| success := 0; failed := 0; errors := [] |}) s.

(** The entry the update at index [k] leaves in [errors] when it fails. *)
Definition errorOf (replies : nat -> settled ShopifyProduct) (item : nat * Update.t)
    : option UpdateError.t :=
  match updateProductDescription (replies item.1) (Update.productId item.2)
          (Update.description item.2) with
  | Fulfilled _ => None
  | Rejected error =>
      Some {| UpdateError.productId := Update.productId item.2;
              UpdateError.error := message error |}
  end.

(** The indexed updates of a chunk whose slot is filled. *)
Fixpoint settledItems (slots : list slot) (items : list (nat * Update.t))
    : list (nat * Update.t) :=
  match slots, items with
  | Done _ :: slots', item :: items' => item :: settledItems slots' items'
  | Pending _ _ :: slots', _ :: items' => settledItems slots' items'
  | _, _ => []
  end.

(** A pending slot holds the update of its place in the chunk. *)
Definition slotOk (slot : slot) (item : nat * Update.t) : Prop :=
  match slot with
  | Pending index update => (index, update) = item
  | Done _ => True
  end.

(** The tally after the updates [settledUpdates] have settled, in some
    order: one count each, and one entry of [errors] per failure. *)
Definition accounts (replies : nat -> settled ShopifyProduct)
    (settledUpdates : list (nat * Update.t)) (results : BulkUpdateResult) : Prop :=
  success results + failed results = length settledUpdates
  /\ failed results = length (errors results)
  /\ errors results ≡ₚ omap (errorOf replies) settledUpdates.

(** What the loop holds at each point of an execution. *)
Definition invariant (replies : nat -> settled ShopifyProduct) (updates : list Update.t)
    (s : state) : Prop :=
  let all := OpenAI.indexed 0 updates in
  match pc s with
  | LoopHead i => accounts replies (take i all) (job s)
  | Awaiting i slots =>
      let items := OpenAI.indexed i (OpenAI.slice i (i + batchSize) updates) in
      Forall2 slotOk slots items
      /\ accounts replies (take i all ++ settledItems slots items) (job s)
  | Returned => accounts replies all (job s)
  end.
End BulkUpdate.

End ShopifyService.

(** ** routes/webhooks *)
Module WebhookRoutes.
Import Js ErrorHandler.

(** What a webhook call can touch: the local mirror of subscriptions and
    products, the fields of the payload read so far, and the log. *)
Record World (Mirror : Type) : Type := mkWorld {
  mirror : Mirror;
  fieldsRead : list jsstring;
  logged : list jsstring
}.
Arguments mkWorld {Mirror} mirror fieldsRead logged.
Arguments mirror {Mirror} w.
Arguments fieldsRead {Mirror} w.
Arguments logged {Mirror} w.

(** How the route answers the platform. *)
Inductive answer : Type := Accepted | Rejected.

Section Billing.
Variables (Mirror Event : Type).
Variable constructEvent : jsstring -> jsstring -> jsstring -> settled Event.
Variable webhookSecret : jsstring.
(** Processing a verified event: the fields it reads, and the mirror it
    leaves. *)
Variable process : Event -> Mirror -> list jsstring * Mirror.

(** Modelled from the spec: the handler of the billing webhook route.  The
    file routes/webhooks is missing from the sources at hand, which only
    mount it (server.ts) and give the verification it calls.  The spec:
    "signature-verified payloads that update local Subscription/product
    mirrors; verification failure must reject without mutating state", and
    "Webhook with invalid signature: local Subscription state is unchanged
    and the call is rejected before any field is read".  So the handler
    verifies first; it reads the event and updates the mirror only when
    [verifyWebhook] returned an event. *)
Definition stripeWebhook (payload signature : jsstring) (w : World Mirror)
    : answer * World Mirror :=
  match StripeService.verifyWebhook Event constructEvent webhookSecret
          payload signature (logged w) with
  | (Some event, log) =>
      let '(fields, mirror') := process event (mirror w) in
      (Accepted, {| mirror := mirror'; fieldsRead := fieldsRead w ++ fields;
                    logged := log |})
  | (None, log) =>
      (Rejected, {| mirror := mirror w; fieldsRead := fieldsRead w; logged := log |})
  end.
End Billing.

Section Store.
Variable Mirror : Type.
Variable hmacSha256Base64 : jsstring -> jsstring -> settled jsstring.
Variable secret : jsstring.                   (* config.shopify.webhookSecret *)
(** Processing a verified body: the fields it reads, and the mirror it
    leaves. *)
Variable process : jsstring -> Mirror -> list jsstring * Mirror.

(** Modelled from the spec: the handler of the store webhook route, missing
    from the sources like the billing one, under the same two sentences of
    the spec: it reads the body and updates the mirror only when
    [verifyWebhook] returned [true]. *)
Definition shopifyWebhook (rawBody signature : jsstring) (w : World Mirror)
    : answer * World Mirror :=
  match ShopifyService.verifyWebhook hmacSha256Base64 rawBody signature secret
          (logged w) with
  | (true, log) =>
      let '(fields, mirror') := process rawBody (mirror w) in
      (Accepted, {| mirror := mirror'; fieldsRead := fieldsRead w ++ fields;
                    logged := log |})
  | (false, log) =>
      (Rejected, {| mirror := mirror w; fieldsRead := fieldsRead w; logged := log |})
  end.
End Store.

End WebhookRoutes.

(** ** Sample data

    Two products, no options, and an upstream that answers the first call
    with an empty completion and every later one with a sentence. *)
Module Samples.
Import Js ErrorHandler OpenAI.

Definition shoe : Product :=
  {| id := js "p1"; title := js "Trail shoe"; existingDescription := None;
     vendor := None; productType := None; tags := None; images := None |}.
Definition lamp : Product :=
  {| id := js "p2"; title := js "Desk lamp"; existingDescription := None;
     vendor := None; productType := None; tags := None; images := None |}.
Definition noOptions : GenerationOptions.t :=
  GenerationOptions.mk None None None None None None None None.

(** A request for the keyword "shoe", and a response that has the
    description section and no other. *)
Definition shoeOptions : GenerationOptions.t :=
  GenerationOptions.mk None None (Some [js "shoe"]) None None None None None.
Definition describedOnly : jsstring :=
  js "**Product Description:**" ++ [LF] ++ js "A fine shoe.".
Definition replies (k : nat) : Reply :=
  match k with
  | 0 => Fulfilled None
  | _ => Fulfilled (Some (js "A sturdy lamp."))
  end.
(** The second call has settled, the first is still pending. *)
Definition lampEntry : Outcome := entryOf replies noOptions 1 lamp.
Definition midway : state :=
  {| pc := Awaiting 0 [Pending 0 shoe; Done lampEntry];
     issued := [0; 1];
     job := {| total := 2; successful := 1; failed := 0; results := [] |} |}.
Definition finished : state :=
  {| pc := Returned;
     issued := [0; 1];
     job := {| total := 2; successful := 1; failed := 1;
               results := [entryOf replies noOptions 0 shoe; lampEntry] |} |}.

(** Six lamps: the first chunk is done and the call for the sixth product
    has just been made. *)
Definition secondChunk : state :=
  {| pc := Awaiting 5 [Pending 5 lamp];
     issued := [0; 1; 2; 3; 4; 5];
     job := {| total := 6; successful := 4; failed := 1;
               results := entriesFrom replies noOptions 0 (replicate 5 lamp) |} |}.

(** A Redis connection that is down: every command throws. *)
Definition connectionRefused : AppError := PlainError (js "connect ECONNREFUSED").
Definition downIncr (client : unit) (key : jsstring) : settled float * unit :=
  (Rejected connectionRefused, client).
Definition downExpire (client : unit) (key : jsstring) (seconds : float)
    : settled bool * unit :=
  (Rejected connectionRefused, client).
Definition someToString (x : float) : jsstring := js "0".

(** A webhook whose signature matches nothing. *)
Definition badSignature : AppError :=
  PlainError (js "No signatures found matching the expected signature for payload").
Definition rejectingConstructEvent (payload signature secret : jsstring)
    : settled jsstring :=
  Rejected badSignature.
Definition someHmac (secret rawBody : jsstring) : settled jsstring :=
  Fulfilled (js "3q2+7w==").
Definition emptyWorld : WebhookRoutes.World (list jsstring) :=
  WebhookRoutes.mkWorld [js "sub_1:active"] [] [].
(** A signature that matches, and a processing step that reads the event's
    type and cancels the subscription. *)
Definition acceptingConstructEvent (payload signature secret : jsstring)
    : settled jsstring :=
  Fulfilled (js "customer.subscription.deleted").
Definition cancel (event : jsstring) (mirror : list jsstring)
    : list jsstring * list jsstring :=
  ([js "type"], [js "sub_1:canceled"]).

(** A user on the basic plan, one on a plan that does not exist, and a
    plain error. *)
Definition basicUser : Auth.User :=
  Auth.mkUser (js "u1") (js "u1@example.com") (js "basic") (js "active").
Definition freeUser : Auth.User :=
  Auth.mkUser (js "u2") (js "u2@example.com") (js "free") (js "active").
Definition boom : AppError := PlainError (js "boom").
Definition production : Env := mkEnv (Some (js "production")) (js "2024-01-01T00:00:00.000Z").
Definition getProducts : Request := mkRequest (js "/api/products") (js "GET") ∅.
(** A response with a keywords section and a score. *)
Definition tagged : jsstring :=
  js "**Keywords Used:**" ++ [LF] ++ js "trail, shoe" ++ [LF] ++ js "**SEO Score:** 85/100".

(** Two updates of a store that turns the first one down; the state after
    the bulk update has returned. *)
Definition shoeUpdate : ShopifyService.Update.t :=
  ShopifyService.Update.mk (js "p1") (js "A fine shoe.").
Definition lampUpdate : ShopifyService.Update.t :=
  ShopifyService.Update.mk (js "p2") (js "A sturdy lamp.").
Definition storeReplies (k : nat) : settled unit :=
  match k with
  | 0 => Rejected (PlainError (js "Exceeded 2 calls per second for api client"))
  | _ => Fulfilled tt
  end.
Definition updated : ShopifyService.state :=
  {| ShopifyService.pc := ShopifyService.Returned;
     ShopifyService.job :=
       {| ShopifyService.success := 1; ShopifyService.failed := 1;
          ShopifyService.errors :=
            [ ShopifyService.UpdateError.mk (js "p1")
                (js "Shopify service error: Failed to update product") ] |} |}.

(** A request with a bearer token, a verifier that accepts every token as
    user u1's, and a database that knows that user. *)
Definition bearer : Request :=
  mkRequest (js "/api/products") (js "GET")
    {[ js "authorization" := VString (js "Bearer abc") ]}.
Definition activeUser : Auth.DbUser :=
  Auth.mkDbUser (js "u1") (js "u1@example.com") (js "basic") (js "active") None.
Definition verifyAny (token secret : jsstring) : settled value :=
  Fulfilled (VObject [(js "userId", VString (js "u1"))]).
Definition findActive (userId : value) : settled (option Auth.DbUser) :=
  Fulfilled (Some activeUser).
Definition never (error : AppError) : bool := false.
Definition proUser : Auth.User :=
  Auth.mkUser (js "u3") (js "u3@example.com") (js "pro") (js "active").
End Samples.

(* ===================================================================== *)
(** * Part II: lemmas and theorems                                        *)
(* ===================================================================== *)

Import Js Regex ErrorHandler OpenAI.

(** ** The matcher *)
Section Matcher.
Implicit Types (r : regex) (s text : jsstring) (g : option jsstring) (res : result).

Lemma stripPrefix_Some text s s' : stripPrefix text s = Some s' -> s = text ++ s'.
Proof.
  revert s. induction text as [|a text IH]; intros [|c s] H; simplify_eq/=; try done.
  destruct (N.eqb_spec a c) as [->|]; [|done]. f_equal. by apply IH.
Qed.

Lemma starGreedy_calls cls s k res :
  starGreedy cls s k = Some res -> exists s', k s' = Some res.
Proof.
  induction s as [|c s IH]; simpl; [by eauto|].
  destruct (cls c); [|by eauto].
  destruct (starGreedy cls s k) eqn:E; [|by eauto].
  intros [= ->]. by apply IH.
Qed.

Lemma starLazy_calls cls s k res :
  starLazy cls s k = Some res -> exists s', k s' = Some res.
Proof.
  induction s as [|c s IH]; simpl.
  - destruct (k []) eqn:E; [|done]. intros [= ->]. eauto.
  - destruct (k (c :: s)) eqn:E; [intros [= ->]; eauto|].
    destruct (cls c); [done|done].
Qed.

(** A match goes through the continuation. *)
Lemma run_calls r s g k res :
  run r s g k = Some res -> exists s' g', k s' g' = Some res.
Proof.
  revert s g k res. induction r; intros s g k res; cbn [run].
  - destruct (stripPrefix text s); [eauto|done].
  - intros [s' H]%starGreedy_calls. eauto.
  - destruct s as [|c s]; [done|]. destruct (cls c); [|done].
    intros [s' H]%starGreedy_calls. eauto.
  - intros [s' H]%starLazy_calls. eauto.
  - intros (s1 & g1 & H)%IHr1. by apply IHr2 in H.
  - destruct (run r1 s g k) eqn:E; [intros [= ->]; by apply IHr1 in E|].
    apply IHr2.
  - intros (s1 & g1 & H)%IHr. eauto.
  - destruct (run r s g _) as [[s1 g1]|]; [eauto|done].
  - destruct s; [eauto|done].
Qed.

(** A capture, once made, is never lost. *)
Lemma run_keeps_group r s (g0 : jsstring) k res :
  run r s (Some g0) k = Some res -> exists s' (c' : jsstring), k s' (Some c') = Some res.
Proof.
  revert s g0 k res. induction r; intros s g0 k res; cbn [run].
  - destruct (stripPrefix text s); [eauto|done].
  - intros [s' H]%starGreedy_calls. eauto.
  - destruct s as [|c s]; [done|]. destruct (cls c); [|done].
    intros [s' H]%starGreedy_calls. eauto.
  - intros [s' H]%starLazy_calls. eauto.
  - intros (s1 & g1 & H)%IHr1. by apply IHr2 in H.
  - destruct (run r1 s (Some g0) k) eqn:E; [intros [= ->]; by apply IHr1 in E|].
    apply IHr2.
  - intros (s1 & g1 & H)%run_calls. eauto.
  - destruct (run r s (Some g0) _) as [[s1 g1]|] eqn:E; [|done].
    apply IHr in E as (s2 & g2 & [= _ <-]). eauto.
  - destruct s; [eauto|done].
Qed.

(** A pattern with its group on every path hands a capture on. *)
Lemma run_sets_group r s g k res :
  setsGroup r = true ->
  run r s g k = Some res -> exists s' (c' : jsstring), k s' (Some c') = Some res.
Proof.
  revert s g k res. induction r; intros s g k res; cbn [run setsGroup]; try done.
  - intros [H1|H2]%orb_true_iff.
    + intros (s1 & g1 & H)%IHr1; [|done]. by apply run_keeps_group in H.
    + intros (s1 & g1 & H)%run_calls. by apply IHr2 in H.
  - intros [H1 H2]%andb_true_iff.
    destruct (run r1 s g k) eqn:E; [intros [= ->]; by apply IHr1 in E|].
    by apply IHr2.
  - intros _ (s1 & g1 & H)%run_calls. eauto.
Qed.

Lemma exec_sets_group r s rest g :
  setsGroup r = true -> exec r s = Some (rest, g) -> is_Some g.
Proof.
  intros Hr. induction s as [|c s IH]; simpl.
  - destruct (run r [] None _) eqn:E; [|done]. intros [= ->].
    apply run_sets_group in E as (s' & g' & [= _ <-]); [eauto|done].
  - destruct (run r (c :: s) None _) eqn:E; [|done].
    intros [= ->].
    apply run_sets_group in E as (s' & g' & [= _ <-]); [eauto|done].
Qed.

(** [match1] tells exactly whether the pattern matched. *)
Lemma match1_None r s :
  setsGroup r = true -> match1 r s = None <-> exec r s = None.
Proof.
  intros Hr. unfold match1.
  destruct (exec r s) as [[rest g]|] eqn:E; [|done].
  destruct (exec_sets_group r s rest g Hr E) as [g' ->]. done.
Qed.

(** A pattern that starts with literal text matches only where the text
    stands. *)
Lemma exec_Lit_occurs text r s res :
  exec (Seq (Lit text) r) s = Some res -> occurs text s.
Proof.
  induction s as [|c s IH]; cbn [exec run].
  - destruct (stripPrefix text []) as [s'|] eqn:E; [|done].
    intros _. apply stripPrefix_Some in E. by exists [], s'.
  - destruct (stripPrefix text (c :: s)) as [s'|] eqn:E.
    + intros _. apply stripPrefix_Some in E. by exists [], s'.
    + intros (before & after & ->)%IH. by exists (c :: before), after.
Qed.

Lemma match1_absent text r s :
  ~ occurs text s -> match1 (Seq (Lit text) r) s = None.
Proof.
  intros Habsent. unfold match1.
  destruct (exec _ s) as [res|] eqn:E; [|done].
  by apply exec_Lit_occurs in E.
Qed.
End Matcher.

(** ** Lists with their input indices *)
Section Indexed.
Context {A : Type}.
Implicit Types (l : list A) (i n : nat).

Lemma indexed_cons i x l : indexed i (x :: l) = (i, x) :: indexed (S i) l.
Proof. reflexivity. Qed.

Lemma length_indexed i l : length (indexed i l) = length l.
Proof.
  revert i. induction l as [|x l IH]; intros i; [done|].
  rewrite indexed_cons. simpl. by rewrite IH.
Qed.

Lemma indexed_take i n l : indexed i (take n l) = take n (indexed i l).
Proof.
  revert i n. induction l as [|x l IH]; intros i [|n]; try done.
  simpl. rewrite !indexed_cons. simpl. by rewrite IH.
Qed.

Lemma indexed_drop i n l : indexed (i + n) (drop n l) = drop n (indexed i l).
Proof.
  revert i n. induction l as [|x l IH]; intros i [|n]; try done.
  - by rewrite Nat.add_0_r.
  - rewrite indexed_cons. cbn [drop]. rewrite <- IH. f_equal. lia.
Qed.

Lemma indexed_lookup i l n x :
  l !! n = Some x -> indexed i l !! n = Some (i + n, x).
Proof.
  revert i n. induction l as [|y l IH]; intros i [|n] Hx; try done.
  - injection Hx as ->. by rewrite indexed_cons, Nat.add_0_r.
  - rewrite indexed_cons. change (indexed (S i) l !! n = Some (i + S n, x)).
    rewrite (IH (S i) n Hx). do 2 f_equal. lia.
Qed.

Lemma imap_indexed {B} (f : nat -> A -> B) i l :
  imap (fun j x => f (i + j) x) l = uncurry f <$> indexed i l.
Proof.
  revert i. induction l as [|x l IH]; intros i; [done|].
  rewrite imap_cons, indexed_cons. simpl. rewrite Nat.add_0_r. f_equal.
  rewrite <- IH. apply imap_ext. intros j y _. simpl. f_equal. lia.
Qed.
End Indexed.

(** ** Counting entries *)
Section Counting.
Implicit Types (entry : Outcome) (l : list Outcome).

Lemma successes_nil : successes [] = 0.
Proof. reflexivity. Qed.

Lemma failures_nil : failures [] = 0.
Proof. reflexivity. Qed.

Lemma successes_cons entry l :
  successes (entry :: l) = (if success entry then 1 else 0) + successes l.
Proof.
  unfold successes. rewrite filter_cons.
  destruct (decide _) as [->|H]; [done|].
  by destruct (success entry).
Qed.

Lemma failures_cons entry l :
  failures (entry :: l) = (if success entry then 0 else 1) + failures l.
Proof.
  unfold failures. rewrite filter_cons.
  destruct (decide _) as [->|H]; [done|].
  by destruct (success entry).
Qed.

Lemma successes_app l1 l2 : successes (l1 ++ l2) = successes l1 + successes l2.
Proof. unfold successes. by rewrite filter_app, length_app. Qed.

Lemma failures_app l1 l2 : failures (l1 ++ l2) = failures l1 + failures l2.
Proof. unfold failures. by rewrite filter_app, length_app. Qed.

(** Every entry is a success or a failure, never both. *)
Lemma successes_failures l : successes l + failures l = length l.
Proof.
  induction l as [|entry l IH]; [done|].
  rewrite successes_cons, failures_cons. simpl.
  destruct (success entry); lia.
Qed.
End Counting.

(** ** The batch loop *)
Section Batch.
Variable replies : nat -> Reply.
Variable products : list Product.
Variable options : GenerationOptions.t.

Local Abbreviation entries := (entriesFrom replies options 0 products).
Local Abbreviation summary' := (summary replies products options).
Local Abbreviation steps := (rtc (step replies products options)).

Lemma result_eq (r1 r2 : BatchGenerationResult) :
  total r1 = total r2 -> successful r1 = successful r2 ->
  failed r1 = failed r2 -> results r1 = results r2 -> r1 = r2.
Proof. destruct r1, r2; simpl; congruence. Qed.

(** The entry a settlement returns does not depend on the counters. *)
Lemma settle_entry k product r :
  (settle (replies k) product options r).2 = entryOf replies options k product.
Proof. unfold entryOf, settle. by destruct (generateDescription _ _ _). Qed.

(** A settlement bumps exactly one counter, by one, and nothing else. *)
Lemma settle_job reply product r :
  let '(r', entry) := settle reply product options r in
  total r' = total r /\ results r' = results r
  /\ successful r' = successful r + successes [entry]
  /\ failed r' = failed r + failures [entry].
Proof.
  unfold settle. destruct (generateDescription _ _ _); simpl;
    rewrite ?successes_cons, ?failures_cons, ?successes_nil, ?failures_nil;
    simpl; repeat split; lia.
Qed.

Lemma length_entriesFrom i l : length (entriesFrom replies options i l) = length l.
Proof. unfold entriesFrom. by rewrite length_fmap, length_indexed. Qed.

Lemma entriesFrom_cons i product l :
  entriesFrom replies options i (product :: l)
  = entryOf replies options i product :: entriesFrom replies options (S i) l.
Proof. reflexivity. Qed.

(** The entries of the chunk starting at [i] are that stretch of the
    entries of the whole input. *)
Lemma entriesFrom_slice i n :
  entriesFrom replies options i (slice i (i + n) products) = take n (drop i entries).
Proof.
  unfold entriesFrom, slice. replace (i + n - i) with n by lia.
  rewrite indexed_take, fmap_take. f_equal.
  by rewrite <- fmap_drop, <- (indexed_drop 0 i).
Qed.

Lemma take_entries_slice i n :
  take i entries ++ entriesFrom replies options i (slice i (i + n) products)
  = take (i + n) entries.
Proof. rewrite entriesFrom_slice. apply take_take_drop. Qed.


Lemma summary_ge n : length products <= n -> summary' n = summary' (length products).
Proof.
  intros Hn. unfold summary.
  rewrite !take_ge by (rewrite length_entriesFrom; lia). done.
Qed.

(** One chunk, callbacks in index order. *)
Lemma runBatch_spec i batch r :
  let '(r', batchResults) := runBatch replies options i batch r in
  batchResults = entriesFrom replies options i batch
  /\ total r' = total r /\ results r' = results r
  /\ successful r' = successful r + successes batchResults
  /\ failed r' = failed r + failures batchResults.
Proof.
  revert i r. induction batch as [|product batch IH]; intros i r.
  - simpl. rewrite successes_nil, failures_nil. repeat split; lia.
  - cbn [runBatch].
    pose proof (settle_job (replies i) product r) as Hjob.
    pose proof (settle_entry i product r) as Hentry.
    destruct (settle (replies i) product options r) as [r1 entry].
    specialize (IH (S i) r1).
    destruct (runBatch replies options (S i) batch r1) as [r2 batchResults].
    simpl in Hentry. subst entry.
    destruct Hjob as (Ht & Hr & Hs & Hf), IH as (-> & Ht' & Hr' & Hs' & Hf').
    rewrite entriesFrom_cons.
    rewrite (successes_cons _ (entriesFrom _ _ _ _)), (failures_cons _ (entriesFrom _ _ _ _)).
    rewrite successes_cons, successes_nil in Hs.
    rewrite failures_cons, failures_nil in Hf.
    repeat split; try congruence; lia.
Qed.

(** Appending a finished chunk to the summary of the first [i] products
    gives the summary of the first [i + batchSize]. *)
Lemma push_summary i r batchResults :
  batchResults = entriesFrom replies options i (slice i (i + batchSize) products) ->
  total r = length products -> results r = take i entries ->
  successful r = successes (take i entries) + successes batchResults ->
  failed r = failures (take i entries) + failures batchResults ->
  push r batchResults = summary' (i + batchSize).
Proof.
  intros -> Ht Hr Hs Hf. unfold summary.
  rewrite <- take_entries_slice.
  apply result_eq; simpl; rewrite ?successes_app, ?failures_app; congruence.
Qed.

Lemma loop_spec fuel i :
  length products - i < fuel ->
  loop fuel replies products options i (summary' i) = Some (summary' (length products)).
Proof.
  revert i. induction fuel as [|fuel IH]; intros i Hfuel; [lia|].
  cbn [loop]. case_bool_decide as Hi.
  - pose proof (runBatch_spec i (slice i (i + batchSize) products) (summary' i)) as Hrun.
    destruct (runBatch _ _ _ _ _) as [r batchResults].
    destruct Hrun as (Hb & Ht & Hr & Hs & Hf).
    rewrite (push_summary i) by (rewrite ?Ht, ?Hr, ?Hs, ?Hf; done).
    apply IH. unfold batchSize. lia.
  - f_equal. apply summary_ge. lia.
Qed.

Lemma initial_summary : initial products = summary' 0.
Proof. reflexivity. Qed.

(** The loop returns, with the summary of the whole input. *)
Lemma batchGenerateDescriptions_spec :
  batchGenerateDescriptions replies products options
  = Some (summary' (length products)).
Proof.
  unfold batchGenerateDescriptions. rewrite initial_summary.
  apply loop_spec. lia.
Qed.

(** *** The event model keeps its invariant *)

Lemma doneOf_app l1 l2 : doneOf (l1 ++ l2) = doneOf l1 ++ doneOf l2.
Proof. apply omap_app. Qed.

Lemma doneOf_cons_Done e slots : doneOf (Done e :: slots) = e :: doneOf slots.
Proof. reflexivity. Qed.

Lemma doneOf_cons_Pending k p slots : doneOf (Pending k p :: slots) = doneOf slots.
Proof. reflexivity. Qed.

Lemma doneOf_Done batchResults : doneOf (Done <$> batchResults) = batchResults.
Proof.
  induction batchResults as [|e l IH]; [done|].
  cbn [fmap list_fmap]. by rewrite doneOf_cons_Done, IH.
Qed.

Lemma doneOf_Pending (items : list (nat * Product)) :
  doneOf (uncurry Pending <$> items) = [].
Proof.
  induction items as [|[k p] l IH]; [done|].
  cbn [fmap list_fmap uncurry]. by rewrite doneOf_cons_Pending.
Qed.

Lemma length_doneOf slots : length (doneOf slots) <= length slots.
Proof.
  induction slots as [|[k p|e] l IH]; [done| |].
  - rewrite doneOf_cons_Pending. simpl. lia.
  - rewrite doneOf_cons_Done. simpl. lia.
Qed.

Lemma slotOk_Pending (items : list (nat * Product)) :
  Forall2 (slotOk replies options) (uncurry Pending <$> items) items.
Proof.
  apply Forall2_fmap_l, Forall_Forall2_diag, Forall_forall.
  intros [k p] _. by left.
Qed.

(** When every slot is filled, the chunk's entries are those of its
    products, in their order. *)
Lemma slotOk_Done batchResults (items : list (nat * Product)) :
  Forall2 (slotOk replies options) (Done <$> batchResults) items ->
  batchResults = uncurry (entryOf replies options) <$> items.
Proof.
  revert items. induction batchResults as [|e l IH]; intros items H.
  - by inversion H.
  - inversion H as [|? [k p] ? items' Hok Hrest]; subst.
    simpl. f_equal; [|by apply IH].
    destruct Hok as [Hok|Hok]; [discriminate|]. by injection Hok.
Qed.

Lemma length_slice i : length (slice i (i + batchSize) products)
                       = batchSize `min` (length products - i).
Proof. unfold slice. rewrite length_take, length_drop. lia. Qed.

Lemma invariant_start : invariant replies products options (start products).
Proof. split; [apply Nat.divide_0_r|]. split; [apply initial_summary | done]. Qed.

Lemma invariant_step s s' :
  step replies products options s s' ->
  invariant replies products options s -> invariant replies products options s'.
Proof.
  unfold invariant.
  destruct 1 as [i iss j Hi batch|i iss j Hi|i before k p after iss j j' e Hset|i rs iss j];
    cbn [pc job issued].
  - intros (Hdiv & -> & ->). subst batch. rewrite imap_indexed.
    rewrite doneOf_Pending, successes_nil, failures_nil, length_slice.
    split_and!; cbn [summary total successful failed results];
      try done; try lia; [apply slotOk_Pending|].
    replace (i `min` length products) with i by lia.
    rewrite <- seq_app. f_equal. unfold batchSize. lia.
  - intros (Hdiv & -> & ->). split; [apply summary_ge; lia | f_equal; lia].
  - intros (Hdiv & Hi & Hslots & Ht & Hr & Hs & Hf & Hiss).
    pose proof (settle_job (replies k) p j) as Hjob.
    pose proof (settle_entry k p j) as Hentry.
    rewrite Hset in Hjob, Hentry. simpl in Hentry. subst e.
    destruct Hjob as (Ht' & Hr' & Hs' & Hf').
    apply Forall2_app_inv_l in Hslots as (items1 & items2 & H1 & H2 & Hitems).
    apply Forall2_cons_inv_l in H2 as ([k' p'] & items3 & Hok & H3 & ->).
    destruct Hok as [Hok|Hok]; [|discriminate]. simpl in Hok.
    injection Hok as -> ->.
    rewrite doneOf_app, doneOf_cons_Pending in Hs, Hf.
    rewrite doneOf_app, doneOf_cons_Done.
    rewrite successes_app, successes_cons. rewrite failures_app, failures_cons.
    rewrite successes_app in Hs. rewrite failures_app in Hf.
    rewrite successes_cons, successes_nil in Hs'.
    rewrite failures_cons, failures_nil in Hf'.
    split_and!; try done; try congruence; try lia.
    rewrite Hitems. apply Forall2_app; [done|].
    constructor; [by right | done].
  - intros (Hdiv & Hi & Hslots & Ht & Hr & Hs & Hf & Hiss).
    rewrite doneOf_Done in Hs, Hf.
    apply slotOk_Done in Hslots.
    split; [by apply Nat.divide_add_r|].
    split; [by apply push_summary | done].
Qed.

Lemma invariant_reachable s :
  reachable replies products options s -> invariant replies products options s.
Proof.
  unfold reachable. revert s.
  apply rtc_ind_r; [apply invariant_start|].
  intros s s' _ Hstep IH. by eapply invariant_step.
Qed.

(** *** The loop function is one execution of the event model *)

Lemma runBatch_steps i k batch before issued r :
  let '(r', batchResults) := runBatch replies options k batch r in
  steps (mkState (Awaiting i ((Done <$> before) ++ (uncurry Pending <$> indexed k batch)))
                 issued r)
        (mkState (Awaiting i (Done <$> (before ++ batchResults))) issued r').
Proof.
  revert k before r. induction batch as [|product batch IH]; intros k before r.
  - simpl. by rewrite !app_nil_r.
  - cbn [runBatch]. rewrite indexed_cons. cbn [fmap list_fmap uncurry].
    destruct (settle (replies k) product options r) as [r1 entry] eqn:Hset.
    specialize (IH (S k) (before ++ [entry]) r1).
    destruct (runBatch replies options (S k) batch r1) as [r2 batchResults].
    eapply rtc_l; [by apply step_settle|].
    rewrite fmap_app, <- app_assoc in IH. simpl in IH.
    by rewrite <- app_assoc in IH.
Qed.

Lemma loop_steps fuel i issued r r' :
  loop fuel replies products options i r = Some r' ->
  exists issued', steps (mkState (LoopHead i) issued r) (mkState Returned issued' r').
Proof.
  revert i issued r. induction fuel as [|fuel IH]; intros i issued r; [done|].
  cbn [loop]. case_bool_decide as Hi.
  - pose proof (runBatch_steps i i (slice i (i + batchSize) products) []
                  (issued ++ seq i (length (slice i (i + batchSize) products))) r) as Hrun.
    destruct (runBatch _ _ _ _ _) as [r1 batchResults].
    intros Hloop. apply IH with (issued := issued ++ seq i (length (slice i (i + batchSize) products)))
      in Hloop as [issued' Hloop].
    exists issued'.
    eapply rtc_l; [by apply step_enter|]. rewrite imap_indexed.
    etrans; [apply Hrun|].
    eapply rtc_l; [apply step_barrier | done].
  - intros [= ->]. exists issued. by apply rtc_once, step_exit.
Qed.

(** The loop function's result is reached by an execution. *)
Lemma batch_returns :
  exists s, reachable replies products options s /\ pc s = Returned
            /\ batchGenerateDescriptions replies products options = Some (job s).
Proof.
  pose proof batchGenerateDescriptions_spec as Hspec.
  pose proof Hspec as Hrun. unfold batchGenerateDescriptions in Hrun.
  apply (loop_steps _ _ []) in Hrun as [issued' Hrun].
  by eexists (mkState Returned issued' _).
Qed.
End Batch.

Section BatchFacts.
Variable replies : nat -> Reply.
Variable products : list Product.
Variable options : GenerationOptions.t.

Local Abbreviation entries := (entriesFrom replies options 0 products).

(** The counters never pass the number of products. *)
Lemma invariant_bound s :
  invariant replies products options s ->
  total (job s) = length products
  /\ successful (job s) + failed (job s) <= total (job s).
Proof.
  unfold invariant. destruct (pc s) as [i|i slots|].
  - intros (_ & -> & _). cbn [summary total successful failed].
    rewrite successes_failures, length_take, length_entriesFrom. lia.
  - intros (_ & Hi & Hslots & Ht & _ & Hs & Hf & _).
    apply Forall2_length in Hslots.
    rewrite length_indexed, length_slice in Hslots.
    pose proof (length_doneOf slots) as Hdone.
    pose proof (successes_failures (doneOf slots)).
    pose proof (successes_failures (take i entries)) as Htake.
    rewrite length_take, length_entriesFrom in Htake.
    split; [done|]. unfold batchSize in *. lia.
  - intros (-> & _). cbn [summary total successful failed].
    rewrite successes_failures, length_take, length_entriesFrom. lia.
Qed.

(** One event changes the counters by one settlement at most. *)
Lemma step_counters s s' :
  step replies products options s s' ->
  total (job s') = total (job s)
  /\ successful (job s) <= successful (job s')
  /\ failed (job s) <= failed (job s')
  /\ successful (job s') + failed (job s') <= S (successful (job s) + failed (job s)).
Proof.
  destruct 1 as [i iss j Hi batch|i iss j Hi|i before k p after iss j j' e Hset|i rs iss j];
    cbn [job push total successful failed]; try lia.
  pose proof (settle_job options (replies k) p j) as Hjob. rewrite Hset in Hjob.
  destruct Hjob as (Ht & _ & Hs & Hf).
  rewrite successes_cons, successes_nil in Hs.
  rewrite failures_cons, failures_nil in Hf.
  destruct (success e); lia.
Qed.

Lemma returned_summary s :
  reachable replies products options s -> pc s = Returned ->
  job s = summary replies products options (length products)
  /\ issued s = seq 0 (length products).
Proof.
  intros Hs Hpc. apply invariant_reachable in Hs.
  unfold invariant in Hs. by rewrite Hpc in Hs.
Qed.

Lemma summary_results :
  results (summary replies products options (length products)) = entries.
Proof. cbn [summary results]. apply take_ge. by rewrite length_entriesFrom. Qed.

Lemma entries_lookup k product :
  products !! k = Some product ->
  entries !! k = Some (entryOf replies options k product).
Proof.
  intros Hk. unfold entriesFrom.
  by rewrite list_lookup_fmap, (indexed_lookup 0 _ _ _ Hk).
Qed.

Lemma entryOf_spec k product :
  entryOf replies options k product =
    match generateDescription (replies k) product options with
    | Fulfilled d =>
        {| productId := id product; success := true;
           description := Some d; error := None |}
    | Rejected e =>
        {| productId := id product; success := false;
           description := None; error := Some (message e) |}
    end.
Proof. unfold entryOf, settle. by destruct (generateDescription _ _ _). Qed.
End BatchFacts.

Lemma sample_midway_reachable :
  reachable Samples.replies [Samples.shoe; Samples.lamp] Samples.noOptions Samples.midway.
Proof.
  unfold reachable.
  eapply rtc_l.
  { apply (step_enter _ [Samples.shoe; Samples.lamp] _ 0). simpl. lia. }
  eapply rtc_l.
  { apply (step_settle _ _ _ 0 [Pending 0 Samples.shoe] 1 Samples.lamp []). reflexivity. }
  apply rtc_refl.
Defined.

Lemma sample_finished_reachable :
  reachable Samples.replies [Samples.shoe; Samples.lamp] Samples.noOptions Samples.finished.
Proof.
  unfold reachable. etrans; [apply sample_midway_reachable|].
  eapply rtc_l.
  { apply (step_settle _ _ _ 0 [] 0 Samples.shoe [Done Samples.lampEntry]). reflexivity. }
  eapply rtc_l.
  { apply (step_barrier _ _ _ 0 [entryOf Samples.replies Samples.noOptions 0 Samples.shoe; Samples.lampEntry]). }
  eapply rtc_l.
  { apply step_exit. simpl. unfold batchSize. lia. }
  apply rtc_refl.
Defined.

(** C1.  In every execution of [batchGenerateDescriptions], for every input
    list and every pattern of replies: [total] is the length of the input
    and [successful + failed <= total] in every state passed through; one
    event raises at most one counter, by one, and lowers none; when the call
    has returned, [successful + failed = total] and [results] holds one
    entry per product; and the call does return. *)
Theorem batch_counters_invariant (replies : nat -> Reply) (products : list Product)
    (options : GenerationOptions.t) :
  (forall s, reachable replies products options s ->
     total (job s) = length products
     /\ successful (job s) + failed (job s) <= total (job s))
  /\ (forall s s', step replies products options s s' ->
     total (job s') = total (job s)
     /\ successful (job s) <= successful (job s')
     /\ failed (job s) <= failed (job s')
     /\ successful (job s') + failed (job s') <= S (successful (job s) + failed (job s)))
  /\ (forall s, reachable replies products options s -> pc s = Returned ->
     successful (job s) + failed (job s) = total (job s)
     /\ length (results (job s)) = length products)
  /\ (exists s, reachable replies products options s /\ pc s = Returned
       /\ batchGenerateDescriptions replies products options = Some (job s)).
Proof.
  split_and!.
  - intros s Hs. apply invariant_reachable in Hs. by apply invariant_bound in Hs.
  - apply step_counters.
  - intros s Hs Hpc. destruct (returned_summary _ _ _ s Hs Hpc) as [-> _].
    cbn [summary total successful failed results].
    rewrite successes_failures, take_ge by (by rewrite length_entriesFrom).
    by rewrite length_entriesFrom.
  - apply batch_returns.
Qed.

Lemma batch_counters_invariant_witness :
  total (job Samples.midway) = 2
  /\ successful (job Samples.midway) + failed (job Samples.midway)
     <= total (job Samples.midway).
Proof.
  exact (proj1 (batch_counters_invariant Samples.replies
                  [Samples.shoe; Samples.lamp] Samples.noOptions)
               Samples.midway sample_midway_reachable).
Defined.



(** C6.  A failure of [generateDescription] for one product stays inside
    [batchGenerateDescriptions].  When the call has returned, the entry at
    the index of a product whose generation was rejected with [e] is
    [{productId, success: false, error: e.message}]; the entry of every
    product whose generation was fulfilled is its success entry, whatever
    happened to the others; [generateDescription] was called exactly once
    for each input index, in order, so nothing was retried and nothing
    skipped; and the call returns a result for every pattern of replies. *)
Theorem batch_failure_is_recorded (replies : nat -> Reply) (products : list Product)
    (options : GenerationOptions.t) :
  (forall s, reachable replies products options s -> pc s = Returned ->
     issued s = seq 0 (length products)
     /\ forall k product, products !! k = Some product ->
          results (job s) !! k =
            Some match generateDescription (replies k) product options with
                 | Fulfilled d =>
                     {| productId := id product; success := true;
                        description := Some d; error := None |}
                 | Rejected e =>
                     {| productId := id product; success := false;
                        description := None; error := Some (message e) |}
                 end)
  /\ (exists s, reachable replies products options s /\ pc s = Returned
       /\ batchGenerateDescriptions replies products options = Some (job s)).
Proof.
  split; [|apply batch_returns].
  intros s Hs Hpc. destruct (returned_summary _ _ _ s Hs Hpc) as [-> ->].
  split; [done|]. intros k product Hk.
  by rewrite summary_results, (entries_lookup _ _ _ _ _ Hk), entryOf_spec.
Qed.

Lemma batch_failure_is_recorded_witness :
  issued Samples.finished = [0; 1]
  /\ results (job Samples.finished) !! 0 =
       Some {| productId := js "p1"; success := false; description := None;
               error := Some (js "OpenAI service error: Failed to generate description") |}.
Proof.
  destruct (proj1 (batch_failure_is_recorded Samples.replies
                     [Samples.shoe; Samples.lamp] Samples.noOptions)
                  Samples.finished sample_finished_reachable eq_refl)
    as [Hissued Hentry].
  split; [exact Hissued|].
  exact (Hentry 0 Samples.shoe eq_refl).
Defined.

(** Whatever the order in which the calls of a chunk settle, an execution
    that returns holds the result the loop function computes. *)
Theorem batch_result_is_determined (replies : nat -> Reply) (products : list Product)
    (options : GenerationOptions.t) (s : state) :
  reachable replies products options s -> pc s = Returned ->
  batchGenerateDescriptions replies products options = Some (job s).
Proof.
  intros Hs Hpc. destruct (returned_summary _ _ _ s Hs Hpc) as [-> _].
  apply batchGenerateDescriptions_spec.
Qed.

Lemma batch_result_is_determined_witness :
  batchGenerateDescriptions Samples.replies [Samples.shoe; Samples.lamp] Samples.noOptions
  = Some (job Samples.finished).
Proof.
  exact (batch_result_is_determined Samples.replies [Samples.shoe; Samples.lamp]
           Samples.noOptions Samples.finished sample_finished_reachable eq_refl).
Defined.

(** ** [generateDescription] and [parseResponse] *)

(** C2.  When the completion call yields no content (absent, the empty
    string, or white space only, which [trim] empties),
    [generateDescription] returns no description: it is rejected with the
    [ExternalServiceError] of the last branch of its [catch], "Failed to
    generate description", whose details name the cause, "No content
    generated from OpenAI". *)
Theorem empty_completion_is_rejected (completion : option jsstring)
    (productData : Product) (options : GenerationOptions.t) :
  trim (default [] completion) = [] ->
  generateDescription (Fulfilled completion) productData options =
    Rejected
      (ExternalServiceError (js "OpenAI") (js "Failed to generate description")
         (Some (VObject [ (js "error", VString (js "No content generated from OpenAI"));
                          (js "productTitle", VString (title productData)) ]))).
Proof.
  intros Hempty. unfold generateDescription.
  destruct completion as [content|]; [|done].
  change (trim content = []) in Hempty.
  cbn [fmap option_fmap option_map]. by rewrite Hempty.
Qed.

Lemma empty_completion_is_rejected_witness :
  generateDescription (Fulfilled (Some [])) Samples.shoe Samples.noOptions =
    Rejected
      (ExternalServiceError (js "OpenAI") (js "Failed to generate description")
         (Some (VObject [ (js "error", VString (js "No content generated from OpenAI"));
                          (js "productTitle", VString (js "Trail shoe")) ]))).
Proof.
  exact (empty_completion_is_rejected (Some []) Samples.shoe Samples.noOptions eq_refl).
Defined.

(** C4, as stated, fails: with the description section present the content
    is the extracted description and not the raw text, and with no "Keywords
    Used" section the keywords are those of the request and not the empty
    list. *)
Lemma parseResponse_fallback_counterexample :
  ~ (forall content productData options,
       match1 keywordsPattern content = None ->
       GeneratedDescription.content (parseResponse content productData options) = content)
  /\ ~ (forall content productData options,
       match1 keywordsPattern content = None ->
       GeneratedDescription.keywords (parseResponse content productData options) = Some []).
Proof.
  assert (match1 keywordsPattern Samples.describedOnly = None) as Hnone
    by (vm_compute; reflexivity).
  split; intros H;
    specialize (H Samples.describedOnly Samples.shoe Samples.shoeOptions Hnone);
    vm_compute in H; discriminate H.
Qed.

(** C4, amended.  Each field of [parseResponse] falls back on its own when
    its section is not found: the content to the raw response text when
    "Product Description" is not found; the keywords to the request's
    [options.keywords], or to the empty list when the request has none, when
    "Keywords Used" is not found; the SEO score, the meta description and
    the title tag to [undefined] when their section is not found.  A
    section whose marker text does not occur in the response is not found. *)
Theorem parseResponse_fallback (content : jsstring) (productData : Product)
    (options : GenerationOptions.t) :
  let parsed := parseResponse content productData options in
  (match1 descriptionPattern content = None ->
     GeneratedDescription.content parsed = content)
  /\ (match1 keywordsPattern content = None ->
     GeneratedDescription.keywords parsed
     = Some (default [] (GenerationOptions.keywords options)))
  /\ (match1 seoPattern content = None -> GeneratedDescription.seoScore parsed = None)
  /\ (match1 metaPattern content = None ->
     GeneratedDescription.metaDescription parsed = None)
  /\ (match1 titlePattern content = None -> GeneratedDescription.titleTag parsed = None)
  /\ (forall label, ~ occurs (js "**" ++ js label ++ js "**") content ->
     match1 (sectionPattern label) content = None)
  /\ (~ occurs (js "**SEO Score:**") content -> match1 seoPattern content = None).
Proof.
  cbn zeta. unfold parseResponse. split_and!.
  - by intros ->.
  - by intros ->.
  - by intros ->.
  - by intros ->.
  - by intros ->.
  - intros label. apply match1_absent.
  - apply match1_absent.
Qed.

Lemma parseResponse_fallback_witness :
  GeneratedDescription.keywords
    (parseResponse Samples.describedOnly Samples.shoe Samples.shoeOptions)
  = Some [js "shoe"]
  /\ GeneratedDescription.titleTag
    (parseResponse Samples.describedOnly Samples.shoe Samples.shoeOptions) = None.
Proof.
  pose proof (parseResponse_fallback Samples.describedOnly Samples.shoe Samples.shoeOptions)
    as (_ & Hkeywords & _ & _ & Htitle & _).
  split; [apply Hkeywords | apply Htitle]; vm_compute; reflexivity.
Defined.

(** ** [calculateCost] *)

(** For 1000 tokens of "gpt-4" the cost is the double 0.039, within 2^-50
    of 0.7 * 0.03 + 0.3 * 0.06 as doubles compute it. *)
Lemma calculateCost_gpt4 :
  calculateCost 1000 (Some (js "gpt-4")) = 0.039%float
  /\ PrimFloat.ltb
       (PrimFloat.abs
          (calculateCost 1000 (Some (js "gpt-4")) - (0.7 * 0.03 + 0.3 * 0.06)))
       0x1p-50 = true.
Proof. split; vm_compute; reflexivity. Qed.

Lemma calculateCost_default (tokenCount : float) :
  calculateCost tokenCount None = calculateCost tokenCount (Some (js "gpt-4")).
Proof. reflexivity. Qed.

(** The fallback works for every name that is neither an entry of the table
    nor a member of [Object.prototype]. *)
Lemma calculateCost_unknown_model (tokenCount : float) (model : jsstring) :
  pricing !! model = None -> model ∉ objectPrototypeKeys ->
  calculateCost tokenCount (Some model) = calculateCost tokenCount (Some (js "gpt-4")).
Proof.
  intros Hentry Hproto.
  assert (getProperty pricing model = Missing) as Hmodel.
  { unfold getProperty. by rewrite Hentry, (bool_decide_eq_false_2 _ Hproto). }
  assert (getProperty pricing (js "gpt-4") = Own {| input := 0.03; output := 0.06 |})
    as Hgpt4 by (vm_compute; reflexivity).
  unfold calculateCost.
  change (default (js "gpt-4") (Some model)) with model.
  change (default (js "gpt-4") (Some (js "gpt-4"))) with (js "gpt-4").
  by rewrite Hmodel, Hgpt4.
Qed.

Lemma calculateCost_unknown_model_witness :
  calculateCost 2500 (Some (js "gpt-5")) = calculateCost 2500 (Some (js "gpt-4")).
Proof.
  apply calculateCost_unknown_model; [vm_compute; reflexivity|].
  vm_compute. intros H.
  repeat (apply elem_of_cons in H as [H|H]; [discriminate H|]).
  by apply elem_of_nil in H.
Defined.

(** C5, at the failing input.  "constructor" is no entry of the price table,
    yet [pricing['constructor']] is the inherited [Object] function, which
    is truthy: the fallback to the "gpt-4" entry is skipped, both prices are
    [undefined], and the cost is [NaN] where the "gpt-4" cost is 0.039. *)
Lemma calculateCost_inherited_name :
  pricing !! js "constructor" = None
  /\ calculateCost 1000 (Some (js "constructor")) = nan
  /\ calculateCost 1000 (Some (js "gpt-4")) = 0.039%float.
Proof. split_and!; vm_compute; reflexivity. Qed.

(** ** The error handler *)
Section ErrorResponse.
Implicit Types (o : gmap jsstring value) (key : jsstring) (v : value).

Lemma json_lookup o key : json o !! key = o !! key ≫= jsonProperty.
Proof. apply lookup_omap. Qed.

Lemma assignIf_lookup_ne cond key key' v o :
  key <> key' -> assignIf cond key v o !! key' = o !! key'.
Proof. intros Hne. unfold assignIf. destruct cond; [by apply lookup_insert_ne | done]. Qed.

Lemma assignIf_lookup_eq cond key v o :
  assignIf cond key v o !! key = if cond then Some v else o !! key.
Proof. unfold assignIf. destruct cond; [apply lookup_insert_eq | done]. Qed.

Lemma orElse_nonempty (s fallback : jsstring) : fallback <> [] -> orElse s fallback <> [].
Proof. intros Hf. unfold orElse. by case_bool_decide. Qed.

Lemma truthy_jsonProperty v : truthy v = true -> jsonProperty v = Some (jsonValue v).
Proof. by destruct v. Qed.

Lemma recognize_unrecognized error : recognized error = false -> recognize error = error.
Proof.
  unfold recognized, recognize.
  intros ((((Hkind & H1)%orb_false_iff & H2)%orb_false_iff & H3)%orb_false_iff
            & H4)%orb_false_iff.
  rewrite H1, H2, H3, H4. by destruct (kind error) as [| |[]|].
Qed.
End ErrorResponse.

(** The keys [errorHandler] assigns are told apart by computation. *)
Ltac key_ne := vm_compute; discriminate.
Ltac through_assignments :=
  rewrite ?json_lookup;
  repeat first
    [ rewrite assignIf_lookup_ne by key_ne
    | rewrite lookup_insert_ne by key_ne ].

(** C8.  Whatever error reaches [errorHandler], the JSON body it sends has
    the fields [error] and [code] (non-empty strings), [timestamp], [path]
    and [method]; it has [details] exactly when the error (as recognized)
    carries truthy details; it has [stack] only when [NODE_ENV] is
    "development"; and an error that none of the tests recognizes and that
    has no [statusCode] and no [code] gets status 500 and the code
    "INTERNAL_ERROR". *)
Theorem errorHandler_response (env : Env) (error : AppError) (req : Request) :
  let res := errorHandler env error req in
  (exists message code,
      message <> [] /\ code <> []
      /\ body res !! js "error" = Some (VString message)
      /\ body res !! js "code" = Some (VString code))
  /\ body res !! js "timestamp" = Some (VString (now env))
  /\ body res !! js "path" = Some (VString (path req))
  /\ body res !! js "method" = Some (VString (method req))
  /\ body res !! js "details"
     = (if isTruthy (details (recognize error))
        then jsonValue <$> details (recognize error) else None)
  /\ (is_Some (body res !! js "stack") -> NODE_ENV env = Some (js "development"))
  /\ (recognized error = false -> statusCode error = None -> code error = None ->
      status res = 500%Z /\ body res !! js "code" = Some (VString (js "INTERNAL_ERROR"))).
Proof.
  cbn zeta. unfold errorHandler. cbn [body status]. split_and!.
  - eexists _, _. split_and!; [| |through_assignments; rewrite lookup_insert_eq; done ..].
    + by apply orElse_nonempty.
    + by apply orElse_nonempty.
  - through_assignments. by rewrite lookup_insert_eq.
  - through_assignments. by rewrite lookup_insert_eq.
  - through_assignments. by rewrite lookup_insert_eq.
  - through_assignments. rewrite assignIf_lookup_eq.
    destruct (details (recognize error)) as [d|] eqn:Hd; cbn [isTruthy].
    + destruct (truthy d) eqn:Ht.
      * cbn [orUndefined default from_option mbind option_bind]. by rewrite truthy_jsonProperty.
      * through_assignments. by rewrite lookup_empty.
    + through_assignments. by rewrite lookup_empty.
  - through_assignments. rewrite assignIf_lookup_eq.
    case_bool_decide as Henv; [done|].
    through_assignments. rewrite lookup_empty. by intros [? ?].
  - intros Hrec Hstatus Hcode. rewrite (recognize_unrecognized _ Hrec), Hstatus, Hcode.
    split; [done|]. through_assignments. by rewrite lookup_insert_eq.
Qed.

Lemma errorHandler_response_witness :
  status (errorHandler Samples.production Samples.boom Samples.getProducts) = 500%Z
  /\ body (errorHandler Samples.production Samples.boom Samples.getProducts) !! js "code"
     = Some (VString (js "INTERNAL_ERROR")).
Proof.
  pose proof (errorHandler_response Samples.production Samples.boom Samples.getProducts)
    as (_ & _ & _ & _ & _ & _ & Hgeneric).
  apply Hgeneric; reflexivity.
Defined.

(** ** Plan gating *)

Lemma planFeatures_unknown (plan : jsstring) :
  plan ∉ [js "basic"; js "pro"; js "enterprise"] -> Auth.planFeatures !! plan = None.
Proof.
  intros Hplan. unfold Auth.planFeatures.
  apply not_elem_of_cons in Hplan as [Hbasic Hplan].
  apply not_elem_of_cons in Hplan as [Hpro Hplan].
  apply not_elem_of_cons in Hplan as [Henterprise _].
  rewrite !lookup_insert_ne by done. by apply lookup_singleton_ne.
Qed.

Lemma featureNotAvailable_code (feature : jsstring) (user : Auth.User) :
  status (Auth.featureNotAvailable feature user) = 403%Z
  /\ body (Auth.featureNotAvailable feature user) !! js "code"
     = Some (VString (js "FEATURE_NOT_AVAILABLE")).
Proof.
  split; [done|]. unfold Auth.featureNotAvailable. cbn [body].
  through_assignments. by rewrite lookup_insert_eq.
Qed.

(** C9.  The plan table of the configuration has [bulkGeneration] off for
    the basic plan, yet [requireFeature('bulkGeneration')] calls [next()]
    for every user on that plan: the middleware reads its own table.  A
    user whose plan is none of basic, pro and enterprise is let through for
    no feature: the answer is 403 FEATURE_NOT_AVAILABLE, except for a plan
    named like a member of [Object.prototype], where the middleware
    throws. *)
Theorem requireFeature_plan_gate :
  Config.bulkGeneration (Config.features (Config.basic Config.plans)) = false
  /\ (forall user, Auth.plan user = js "basic" ->
      Auth.requireFeature (js "bulkGeneration") (Some user) = Auth.Next)
  /\ (forall feature user,
      Auth.plan user ∉ [js "basic"; js "pro"; js "enterprise"] ->
      Auth.requireFeature feature (Some user) <> Auth.Next
      /\ Auth.requireFeature feature (Some user)
         = if bool_decide (Auth.plan user ∈ objectPrototypeKeys)
           then Auth.Throws (Auth.TypeError (js "userFeatures.includes is not a function"))
           else Auth.Responds (Auth.featureNotAvailable feature user))
  /\ (forall feature user,
      status (Auth.featureNotAvailable feature user) = 403%Z
      /\ body (Auth.featureNotAvailable feature user) !! js "code"
         = Some (VString (js "FEATURE_NOT_AVAILABLE"))).
Proof.
  split_and!; [| | |apply featureNotAvailable_code].
  - reflexivity.
  - intros user Hplan. unfold Auth.requireFeature. rewrite Hplan.
    vm_compute. reflexivity.
  - intros feature user Hplan.
    assert (Auth.requireFeature feature (Some user)
            = if bool_decide (Auth.plan user ∈ objectPrototypeKeys)
              then Auth.Throws (Auth.TypeError (js "userFeatures.includes is not a function"))
              else Auth.Responds (Auth.featureNotAvailable feature user)) as Hout.
    { unfold Auth.requireFeature, getProperty.
      rewrite (planFeatures_unknown _ Hplan).
      case_bool_decide; [done|].
      unfold includes. by rewrite bool_decide_eq_false_2 by apply not_elem_of_nil. }
    split; [|done]. rewrite Hout. by case_bool_decide.
Qed.

Lemma requireFeature_plan_gate_witness :
  Auth.requireFeature (js "bulkGeneration") (Some Samples.basicUser) = Auth.Next
  /\ Auth.requireFeature (js "seoOptimization") (Some Samples.freeUser) <> Auth.Next.
Proof.
  pose proof requireFeature_plan_gate as (_ & Hbasic & Hunknown & _).
  split.
  - apply Hbasic. reflexivity.
  - apply Hunknown. vm_compute. intros H.
    repeat (apply elem_of_cons in H as [H|H]; [discriminate H|]).
    by apply elem_of_nil in H.
Defined.

(** ** The rate limiter *)

(** C10.  For every key, limit and window, and every Redis behind the
    client: when the [incr] command throws, [rateLimiter.check] answers
    [true], so the request is allowed. *)
Theorem rateLimiter_fails_open (Client : Type)
    (incr : Client -> jsstring -> settled float * Client)
    (expire : Client -> jsstring -> float -> settled bool * Client)
    (toString : float -> jsstring)
    (dateNow : float) (key : jsstring) (limit windowSeconds : float)
    (client client' : Client) (e : AppError) :
  incr client (Redis.rateLimiter.redisKey toString dateNow key windowSeconds) = (Rejected e, client') ->
  Redis.rateLimiter.check Client incr expire toString dateNow key limit windowSeconds client
  = (true, client').
Proof. intros Hincr. unfold Redis.rateLimiter.check. by rewrite Hincr. Qed.

Lemma rateLimiter_fails_open_witness :
  Redis.rateLimiter.check unit Samples.downIncr Samples.downExpire Samples.someToString
    1700000000000 (js "user:42") 100 60 tt
  = (true, tt).
Proof.
  exact (rateLimiter_fails_open unit Samples.downIncr Samples.downExpire
           Samples.someToString 1700000000000 (js "user:42") 100 60 tt tt
           Samples.connectionRefused eq_refl).
Defined.

(** ** Webhook verification *)

(** A verified webhook is processed: with a signature that matches, the
    billing route accepts and leaves what the processing step leaves. *)
Lemma stripeWebhook_accepts (Mirror Event : Type)
    (constructEvent : jsstring -> jsstring -> jsstring -> settled Event)
    (webhookSecret : jsstring) (process : Event -> Mirror -> list jsstring * Mirror)
    (payload signature : jsstring) (w : WebhookRoutes.World Mirror) (event : Event) :
  constructEvent payload signature webhookSecret = Fulfilled event ->
  WebhookRoutes.stripeWebhook Mirror Event constructEvent webhookSecret process
    payload signature w
  = (WebhookRoutes.Accepted,
     {| WebhookRoutes.mirror := (process event (WebhookRoutes.mirror w)).2;
        WebhookRoutes.fieldsRead :=
          WebhookRoutes.fieldsRead w ++ (process event (WebhookRoutes.mirror w)).1;
        WebhookRoutes.logged := WebhookRoutes.logged w |}).
Proof.
  intros Hevent. unfold WebhookRoutes.stripeWebhook, StripeService.verifyWebhook.
  rewrite Hevent. by destruct (process event _).
Qed.

(** With the sample signature that matches, the mirror does change and a
    field is read. *)
Lemma sample_webhook_accepted :
  WebhookRoutes.stripeWebhook (list jsstring) jsstring Samples.acceptingConstructEvent
    (js "whsec_test") Samples.cancel (js "{}") (js "t=1,v1=ab") Samples.emptyWorld
  = (WebhookRoutes.Accepted,
     WebhookRoutes.mkWorld [js "sub_1:canceled"] [js "type"] []).
Proof. reflexivity. Qed.

(** C7.  When the signature check fails, for every payload and signature:
    [stripeService.verifyWebhook] returns [null] (the library's
    [constructEvent] threw) and [shopifyService.verifyWebhook] returns
    [false] (the digest is not the signature, or computing it threw); the
    route that called it rejects the call, the mirror of subscriptions and
    products is as it was, and no field of the payload was read during the
    call, whatever the processing of a verified webhook reads and writes. *)
Theorem webhook_verification_rejects :
  (forall (Mirror Event : Type)
          (constructEvent : jsstring -> jsstring -> jsstring -> settled Event)
          (webhookSecret : jsstring)
          (process : Event -> Mirror -> list jsstring * Mirror)
          (payload signature : jsstring)
          (w : WebhookRoutes.World Mirror) (e : AppError),
      constructEvent payload signature webhookSecret = Rejected e ->
      (StripeService.verifyWebhook Event constructEvent webhookSecret
         payload signature (WebhookRoutes.logged w)).1 = None
      /\ (WebhookRoutes.stripeWebhook Mirror Event constructEvent webhookSecret process
            payload signature w).1 = WebhookRoutes.Rejected
      /\ WebhookRoutes.mirror
           (WebhookRoutes.stripeWebhook Mirror Event constructEvent webhookSecret process
              payload signature w).2 = WebhookRoutes.mirror w
      /\ WebhookRoutes.fieldsRead
           (WebhookRoutes.stripeWebhook Mirror Event constructEvent webhookSecret process
              payload signature w).2 = WebhookRoutes.fieldsRead w)
  /\ (forall (Mirror : Type)
          (hmacSha256Base64 : jsstring -> jsstring -> settled jsstring)
          (secret : jsstring)
          (process : jsstring -> Mirror -> list jsstring * Mirror)
          (rawBody signature : jsstring) (w : WebhookRoutes.World Mirror),
      hmacSha256Base64 secret rawBody <> Fulfilled signature ->
      (ShopifyService.verifyWebhook hmacSha256Base64 rawBody signature secret
         (WebhookRoutes.logged w)).1 = false
      /\ (WebhookRoutes.shopifyWebhook Mirror hmacSha256Base64 secret process
            rawBody signature w).1 = WebhookRoutes.Rejected
      /\ WebhookRoutes.mirror
           (WebhookRoutes.shopifyWebhook Mirror hmacSha256Base64 secret process
              rawBody signature w).2 = WebhookRoutes.mirror w
      /\ WebhookRoutes.fieldsRead
           (WebhookRoutes.shopifyWebhook Mirror hmacSha256Base64 secret process
              rawBody signature w).2 = WebhookRoutes.fieldsRead w).
Proof.
  split.
  - intros Mirror Event constructEvent webhookSecret process payload signature w e Hfail.
    unfold WebhookRoutes.stripeWebhook, StripeService.verifyWebhook.
    by rewrite Hfail.
  - intros Mirror hmac secret process rawBody signature w Hfail.
    assert ((ShopifyService.verifyWebhook hmac rawBody signature secret
               (WebhookRoutes.logged w)).1 = false) as Hverify.
    { unfold ShopifyService.verifyWebhook.
      destruct (hmac secret rawBody) as [hash|e]; [|done].
      cbn [fst]. apply bool_decide_eq_false_2. congruence. }
    split; [done|]. unfold WebhookRoutes.shopifyWebhook.
    destruct (ShopifyService.verifyWebhook _ _ _ _ _) as [[] log]; [done|].
    by split_and!.
Qed.

Lemma webhook_verification_rejects_witness :
  (WebhookRoutes.stripeWebhook (list jsstring) jsstring Samples.rejectingConstructEvent
     (js "whsec_test") Samples.cancel (js "{}") (js "t=1,v1=00")
     Samples.emptyWorld).1 = WebhookRoutes.Rejected
  /\ WebhookRoutes.mirror
       (WebhookRoutes.shopifyWebhook (list jsstring) Samples.someHmac (js "shpss_test")
          (fun body => Samples.cancel body) (js "{}") (js "AAAA") Samples.emptyWorld).2
     = [js "sub_1:active"].
Proof.
  pose proof webhook_verification_rejects as [Hstripe Hshopify].
  split.
  - apply (Hstripe _ _ _ _ Samples.cancel _ _ _ Samples.badSignature). reflexivity.
  - apply (Hshopify _ Samples.someHmac (js "shpss_test") (fun body => Samples.cancel body)
             (js "{}") (js "AAAA") Samples.emptyWorld).
    vm_compute. discriminate.
Defined.

(* ===================================================================== *)
(** * Part III: more of the services                                      *)
(* ===================================================================== *)

(** ** What the section patterns capture *)
Section Capture.
Implicit Types (s text : jsstring) (res : result).

Lemma stripPrefix_app text s : stripPrefix text (text ++ s) = Some s.
Proof.
  induction text as [|a text IH]; [by destruct s|].
  simpl. by rewrite N.eqb_refl.
Qed.

Lemma stripPrefix_iff text s s' : stripPrefix text s = Some s' <-> s = text ++ s'.
Proof. split; [apply stripPrefix_Some | intros ->; apply stripPrefix_app]. Qed.

(** No split of the input into a run of the class and a rest lets the
    continuation succeed. *)
Lemma starGreedy_None cls s k :
  starGreedy cls s k = None ->
  forall w s2, s = w ++ s2 -> Forall (fun c => cls c = true) w -> k s2 = None.
Proof.
  induction s as [|c s IH]; simpl.
  - intros Hk w s2 Hs _. symmetry in Hs. apply app_eq_nil in Hs as [-> ->]. done.
  - destruct (cls c) eqn:Hc.
    + destruct (starGreedy cls s k) eqn:E; [done|].
      intros Hk [|c' w] s2 Hs Hw; simplify_eq/=; [done|].
      inversion Hw; subst. by eapply IH.
    + intros Hk [|c' w] s2 Hs Hw; simplify_eq/=; [done|].
      inversion Hw; congruence.
Qed.

(** Greedy: the match goes through the longest run that lets the
    continuation succeed. *)
Lemma starGreedy_spec cls s k res :
  starGreedy cls s k = Some res ->
  exists w s2,
    s = w ++ s2 /\ Forall (fun c => cls c = true) w /\ k s2 = Some res
    /\ forall w' s2', s = w' ++ s2' -> Forall (fun c => cls c = true) w' ->
                      length w < length w' -> k s2' = None.
Proof.
  revert res. induction s as [|c s IH]; intros res; simpl.
  - intros Hk. exists [], []. split_and!; try done.
    intros w' s2' Hs _ Hlen. symmetry in Hs. apply app_eq_nil in Hs as [-> ->].
    simpl in Hlen. lia.
  - destruct (cls c) eqn:Hc.
    + destruct (starGreedy cls s k) as [r|] eqn:E.
      * intros [= ->]. destruct (IH res eq_refl) as (w & s2 & -> & Hw & Hk & Hmax).
        exists (c :: w), s2. split_and!; try done; [by constructor|].
        intros [|c' w'] s2' Hs Hw' Hlen; simpl in Hlen; [lia|].
        simplify_eq/=. inversion Hw'; subst. eapply Hmax; [done..|lia].
      * intros Hk. exists [], (c :: s). split_and!; try done.
        intros [|c' w'] s2' Hs Hw' Hlen; simpl in Hlen; [lia|].
        simplify_eq/=. inversion Hw'; subst.
        by eapply starGreedy_None.
    + intros Hk. exists [], (c :: s). split_and!; try done.
      intros [|c' w'] s2' Hs Hw' Hlen; simpl in Hlen; [lia|].
      simplify_eq/=. inversion Hw'; congruence.
Qed.

(** Lazy: the match stops at the first place where the continuation
    succeeds. *)
Lemma starLazy_spec cls s k res :
  starLazy cls s k = Some res ->
  exists g s4,
    s = g ++ s4 /\ k s4 = Some res
    /\ forall g' s4', s = g' ++ s4' -> length g' < length g -> k s4' = None.
Proof.
  induction s as [|c s IH]; simpl.
  - destruct (k []) as [r|] eqn:E; [|done]. intros [= ->].
    exists [], []. split_and!; try done. intros g' s4' _ Hlen. simpl in Hlen. lia.
  - destruct (k (c :: s)) as [r|] eqn:E.
    + intros [= ->]. exists [], (c :: s). split_and!; try done.
      intros g' s4' _ Hlen. simpl in Hlen. lia.
    + destruct (cls c); [|done].
      intros (g & s4 & -> & Hk & Hmin)%IH.
      exists (c :: g), s4. split_and!; try done.
      intros [|c' g'] s4' Hs Hlen; simplify_eq/=; [done|].
      eapply Hmin; [done|lia].
Qed.

(** With the class of all code units the lazy star finds the end of the
    input at the latest. *)
Lemma starLazy_any_total s k :
  is_Some (k []) -> is_Some (starLazy anyUnit s k).
Proof.
  intros Hend. induction s as [|c s IH]; simpl.
  - destruct (k []); [by eexists|]. by destruct Hend.
  - destruct (k (c :: s)); [by eexists|]. done.
Qed.

Lemma lookAhead_stop s g res :
  run (LookAhead (Alt (Lit (LF :: js "**")) EndAnchor)) s g
      (fun s' g' => Some (s', g')) = Some res
  <-> atStop s /\ res = (s, g).
Proof.
  cbn [run].
  destruct (stripPrefix (LF :: js "**") s) as [t|] eqn:E.
  - apply stripPrefix_Some in E. split.
    + intros [= <-]. split; [right; by exists t | done].
    + by intros [_ ->].
  - destruct s as [|c s].
    + split; [intros [= <-]; split; [by left|done] | by intros [_ ->]].
    + split; [done|]. intros [[?|[t Ht]] _]; [done|].
      rewrite Ht in E. change (LF :: js "**" ++ t) with ((LF :: js "**") ++ t) in E.
      by rewrite stripPrefix_app in E.
Qed.

Lemma exec_run r s res :
  exec r s = Some res ->
  exists before rest,
    s = before ++ rest /\ run r rest None (fun s' g => Some (s', g)) = Some res.
Proof.
  induction s as [|c s IH]; cbn [exec].
  - destruct (run r [] None _) eqn:E; [|done]. intros [= ->]. by exists [], [].
  - destruct (run r (c :: s) None _) eqn:E.
    + intros [= ->]. by exists [], (c :: s).
    + intros (before & rest & -> & Hrun)%IH. by exists (c :: before), rest.
Qed.

Lemma run_section label s res :
  run (sectionPattern label) s None (fun s' g => Some (s', g)) = Some res ->
  exists w g after,
    s = (js "**" ++ js label ++ js "**") ++ w ++ LF :: g ++ after
    /\ res = (after, Some g)
    /\ Forall (fun c => isWhiteSpace c = true) w
    /\ atStop after
    /\ (forall g1 g2, g = g1 ++ g2 -> g2 <> [] -> ~ atStop (g2 ++ after))
    /\ (forall u v, g ++ after = u ++ LF :: v ->
                    ~ Forall (fun c => isWhiteSpace c = true) u).
Proof.
  unfold sectionPattern. cbn [run].
  destruct (stripPrefix _ s) as [s1|] eqn:Hmarker; [|done].
  apply stripPrefix_Some in Hmarker as ->.
  intros (w & s2 & -> & Hw & Hk & Hmax)%starGreedy_spec.
  destruct (stripPrefix [LF] s2) as [s3|] eqn:Hlf; [|done].
  apply stripPrefix_Some in Hlf as ->.
  apply starLazy_spec in Hk as (g & after & -> & Hk & Hmin).
  apply lookAhead_stop in Hk as [Hstop ->].
  exists w, g, after.
  assert (take (length (g ++ after) - length after) (g ++ after) = g) as ->.
  { rewrite length_app. replace (length g + length after - length after)
      with (length g) by lia. by rewrite take_app_length. }
  split_and!; try done.
  - intros g1 g2 -> Hg2 Hstop2.
    specialize (Hmin g1 (g2 ++ after)).
    rewrite <- app_assoc in Hmin. specialize (Hmin eq_refl).
    rewrite length_app in Hmin.
    assert (length g2 <> 0) by (by destruct g2).
    specialize (Hmin ltac:(lia)).
    set (cap := Some _) in Hmin.
    assert (run (LookAhead (Alt (Lit (LF :: js "**")) EndAnchor)) (g2 ++ after) cap
              (fun s' g' => Some (s', g')) = Some (g2 ++ after, cap)) as Hrun
      by (by apply lookAhead_stop).
    cbn [run] in Hrun. congruence.
  - intros u v Huv Hu.
    specialize (Hmax (w ++ LF :: u) (LF :: v)).
    rewrite <- app_assoc in Hmax. cbn [app] in Hmax.
    change ([LF] ++ g ++ after) with (LF :: (g ++ after)) in Hmax.
    rewrite Huv in Hmax. specialize (Hmax eq_refl).
    assert (Forall (fun c => isWhiteSpace c = true) (w ++ LF :: u)) as Hw'.
    { apply Forall_app. split; [done|]. by constructor. }
    specialize (Hmax Hw'). rewrite length_app in Hmax. simpl in Hmax.
    specialize (Hmax ltac:(lia)).
    cbn [stripPrefix] in Hmax.
    match type of Hmax with
    | starLazy anyUnit v ?k = None =>
        destruct (starLazy_any_total v k) as [r Hr]; [|congruence]
    end.
    by eexists.
Qed.
End Capture.

Lemma match1_section (label : string) (content g : jsstring) :
  match1 (sectionPattern label) content = Some g ->
  exists before w after,
    content = before ++ (js "**" ++ js label ++ js "**") ++ w ++ LF :: g ++ after
    /\ Forall (fun c => isWhiteSpace c = true) w
    /\ atStop after
    /\ ~ occurs (LF :: js "**") g
    /\ (forall u v, g ++ after = u ++ LF :: v ->
                    ~ Forall (fun c => isWhiteSpace c = true) u).
Proof.
  unfold match1. destruct (exec _ content) as [[rest [g'|]]|] eqn:Hexec; [|done..].
  intros [= ->].
  apply exec_run in Hexec as (before & suffix & -> & Hrun).
  apply run_section in Hrun as (w & g' & after & -> & [= -> <-] & Hw & Hstop & Hmin & Hmax).
  exists before, w, after. split_and!; try done.
  intros (b & a & ->). apply (Hmin b ((LF :: js "**") ++ a)); [done..|].
  right. exists (a ++ after). by rewrite <- app_assoc.
Qed.

(** When a section is found, its marker is followed by white space up to a
    line feed, the last one of that run of white space; the captured text
    runs from there to the end of the response or to the next line feed
    followed by two asterisks, and contains no such line feed itself. *)
Theorem section_capture (label : string) (content g : jsstring) :
  match1 (sectionPattern label) content = Some g ->
  exists before w after,
    content = before ++ (js "**" ++ js label ++ js "**") ++ w ++ LF :: g ++ after
    /\ Forall (fun c => isWhiteSpace c = true) w
    /\ atStop after
    /\ ~ occurs (LF :: js "**") g
    /\ (forall u v, g ++ after = u ++ LF :: v ->
                    ~ Forall (fun c => isWhiteSpace c = true) u).
Proof. apply match1_section. Qed.

Lemma section_capture_witness :
  exists before w after,
    Samples.describedOnly
    = before ++ (js "**" ++ js "Product Description:" ++ js "**") ++ w
      ++ LF :: js "A fine shoe." ++ after
    /\ Forall (fun c => isWhiteSpace c = true) w
    /\ atStop after
    /\ ~ occurs (LF :: js "**") (js "A fine shoe.")
    /\ (forall u v, js "A fine shoe." ++ after = u ++ LF :: v ->
                    ~ Forall (fun c => isWhiteSpace c = true) u).
Proof.
  apply (section_capture "Product Description:" Samples.describedOnly (js "A fine shoe.")).
  vm_compute. reflexivity.
Defined.

(** When the SEO score is found, what is parsed is the whole run of decimal
    digits that follows the marker and any white space: at least one digit,
    and nothing but digits. *)
Theorem seo_capture (content g : jsstring) :
  match1 seoPattern content = Some g ->
  g <> [] /\ Forall (fun c => isDigit c = true) g
  /\ exists before w after,
       content = before ++ js "**SEO Score:**" ++ w ++ g ++ after
       /\ Forall (fun c => isWhiteSpace c = true) w
       /\ (forall c rest, after = c :: rest -> isDigit c = false).
Proof.
  unfold match1. destruct (exec _ content) as [[rest [g'|]]|] eqn:Hexec; [|done..].
  intros [= ->].
  apply exec_run in Hexec as (before & suffix & -> & Hrun).
  unfold seoPattern in Hrun. cbn [run] in Hrun.
  destruct (stripPrefix _ suffix) as [s1|] eqn:Hmarker; [|done].
  apply stripPrefix_Some in Hmarker as ->.
  apply starGreedy_spec in Hrun as (w & s2 & -> & Hw & Hk & _).
  destruct s2 as [|c s2]; [done|]. destruct (isDigit c) eqn:Hc; [|done].
  apply starGreedy_spec in Hk as (ds & after & -> & Hds & Hk & Hmax).
  assert (take (length (c :: ds ++ after) - length after) (c :: ds ++ after) = c :: ds)
    as Htake.
  { change (c :: ds ++ after) with ((c :: ds) ++ after).
    rewrite length_app. replace (length (c :: ds) + length after - length after)
      with (length (c :: ds)) by lia. by rewrite take_app_length. }
  rewrite Htake in Hk. injection Hk as <- <-.
  split_and!; [done|by constructor|].
  exists before, w, after. split_and!; try done.
  intros c' rest' -> . destruct (isDigit c') eqn:Hc'; [|done].
  specialize (Hmax (ds ++ [c']) rest'). rewrite <- app_assoc in Hmax.
  specialize (Hmax eq_refl).
  assert (Forall (fun c => isDigit c = true) (ds ++ [c'])) as Hds'
    by (apply Forall_app; split; [done|by constructor]).
  specialize (Hmax Hds'). rewrite length_app in Hmax. simpl in Hmax.
  by specialize (Hmax ltac:(lia)).
Qed.

(** ** [trim] *)
Section Trim.
Implicit Types (s w : jsstring) (c : N).

Local Abbreviation blank := (fun c : N => isWhiteSpace c = true).

Lemma trimStart_decomp s : exists w, s = w ++ trimStart s /\ Forall blank w.
Proof.
  induction s as [|c s (w & Hs & Hw)]; [by exists []|]. simpl.
  destruct (isWhiteSpace c) eqn:Hc; [|by exists []].
  exists (c :: w). split; [by rewrite Hs at 1 | by constructor].
Qed.

Lemma trimStart_head s c r : trimStart s = c :: r -> isWhiteSpace c = false.
Proof.
  induction s as [|c' s IH]; [done|]. simpl.
  destruct (isWhiteSpace c') eqn:Hc; [done|]. by intros [= <- _].
Qed.

Lemma trimStart_fix s :
  (forall c r, s = c :: r -> isWhiteSpace c = false) -> trimStart s = s.
Proof. destruct s as [|c s]; [done|]. intros H. simpl. by rewrite (H c s). Qed.

Lemma trimStart_idem s : trimStart (trimStart s) = trimStart s.
Proof.
  apply trimStart_fix. intros c r H. by apply trimStart_head in H.
Qed.

Lemma trimStart_blank s : Forall blank s -> trimStart s = [].
Proof. induction 1 as [|c s Hc _ IH]; [done|]. simpl. by rewrite Hc. Qed.

Lemma trimEnd_decomp s : exists w, s = trimEnd s ++ w /\ Forall blank w.
Proof.
  destruct (trimStart_decomp (rev s)) as (w & Hs & Hw).
  exists (rev w). split; [|by apply Forall_rev].
  unfold trimEnd. rewrite <- rev_app_distr, <- Hs. by rewrite rev_involutive.
Qed.

Lemma trimEnd_last s r c : trimEnd s = r ++ [c] -> isWhiteSpace c = false.
Proof.
  unfold trimEnd. intros H. apply (f_equal (@rev N)) in H.
  rewrite rev_involutive, rev_app_distr in H. by apply trimStart_head in H.
Qed.

Lemma trimEnd_idem s : trimEnd (trimEnd s) = trimEnd s.
Proof. unfold trimEnd. by rewrite rev_involutive, trimStart_idem. Qed.

Lemma trim_head s c r : trim s = c :: r -> isWhiteSpace c = false.
Proof.
  unfold trim. intros H.
  destruct (trimEnd_decomp (trimStart s)) as (w & Hs & _).
  rewrite H in Hs. by apply trimStart_head in Hs.
Qed.

Lemma trim_last s r c : trim s = r ++ [c] -> isWhiteSpace c = false.
Proof. apply trimEnd_last. Qed.

Lemma trim_idem s : trim (trim s) = trim s.
Proof.
  unfold trim at 1. rewrite trimStart_fix by (intros c r; apply trim_head).
  unfold trim. apply trimEnd_idem.
Qed.

Lemma trim_nil s : trim s = [] <-> Forall blank s.
Proof.
  split.
  - intros H. destruct (trimStart_decomp s) as (w & Hs & Hw).
    destruct (trimEnd_decomp (trimStart s)) as (w' & Hs' & Hw').
    unfold trim in H. rewrite H in Hs'. rewrite Hs, Hs'. by apply Forall_app.
  - intros H. unfold trim. by rewrite trimStart_blank.
Qed.
End Trim.

(** ** Words *)
Section Words.
Implicit Types (s : jsstring) (c : N).

(** In a text that does not end in white space, every piece after the
    first is a word, and after a separator so is the first. *)
Lemma splitWhiteSpaceFrom_words s :
  (forall r c, s = r ++ [c] -> isWhiteSpace c = false) ->
  (exists piece pieces,
      splitWhiteSpaceFrom false s = piece :: pieces
      /\ Forall (fun p => p <> []) pieces)
  /\ (s <> [] -> Forall (fun p => p <> []) (splitWhiteSpaceFrom true s)).
Proof.
  induction s as [|c s IH]; intros Hlast.
  - split; [by exists [], []|done].
  - assert (forall r c', s = r ++ [c'] -> isWhiteSpace c' = false) as Hlast'.
    { intros r c' ->. by apply (Hlast (c :: r)). }
    destruct (IH Hlast') as ((piece & pieces & Hfalse & Hpieces) & Htrue).
    assert (isWhiteSpace c = true -> s <> []) as Hs.
    { intros Hc ->. specialize (Hlast [] c eq_refl). congruence. }
    cbn [splitWhiteSpaceFrom]. destruct (isWhiteSpace c) eqn:Hc.
    + split; [|by auto]. eexists [], _. split; [done|]. by auto.
    + rewrite Hfalse. split; [by eauto|]. intros _. by constructor.
Qed.
End Words.

Lemma generated_content_trimmed (reply : Reply) (productData : Product)
    (options : GenerationOptions.t) (d : GeneratedDescription.t) :
  generateDescription reply productData options = Fulfilled d ->
  GeneratedDescription.content d <> []
  /\ trim (GeneratedDescription.content d) = GeneratedDescription.content d.
Proof.
  unfold generateDescription. destruct reply as [completion|e]; [|by repeat case_bool_decide].
  destruct (trim <$> completion) as [[|c rest]|] eqn:Hcontent;
    [by repeat case_bool_decide| |by repeat case_bool_decide].
  intros [= <-]. destruct completion as [raw|]; [|done].
  injection Hcontent as Hcontent.
  unfold parseResponse. cbn [GeneratedDescription.content].
  destruct (match1 descriptionPattern (c :: rest)) as [g|] eqn:Hmatch.
  - split; [|apply trim_idem]. intros Hblank%trim_nil.
    apply match1_section in Hmatch as (before & w & after & Hc & Hw & Hstop & _ & Hmax).
    destruct Hstop as [->|[t ->]].
    + rewrite app_nil_r in Hc.
      destruct (exists_last (l := LF :: g)) as (r & cl & Hr); [done|].
      assert (isWhiteSpace cl = true) as Hcl.
      { assert (Forall (fun c => isWhiteSpace c = true) (LF :: g)) as Hall
          by (by constructor).
        rewrite Hr in Hall. apply Forall_app in Hall as [_ Hall]. by inversion Hall. }
      rewrite Hr, <- Hcontent in Hc. rewrite !app_assoc in Hc.
      apply trim_last in Hc. congruence.
    + by apply (Hmax g (js "**" ++ t)).
  - split; [done|]. rewrite <- Hcontent. apply trim_idem.
Qed.

(** The content [generateDescription] returns is never empty and has no
    white space at either end. *)
Theorem generated_content_is_text (reply : Reply) (productData : Product)
    (options : GenerationOptions.t) (d : GeneratedDescription.t) :
  generateDescription reply productData options = Fulfilled d ->
  GeneratedDescription.content d <> []
  /\ trim (GeneratedDescription.content d) = GeneratedDescription.content d.
Proof. apply generated_content_trimmed. Qed.

(** Every piece [wordCount] counts in a generated description is a word:
    no piece of the split is the empty string, and there is at least one. *)
Theorem generated_wordCount_counts_words (reply : Reply) (productData : Product)
    (options : GenerationOptions.t) (d : GeneratedDescription.t) :
  generateDescription reply productData options = Fulfilled d ->
  exists words,
    splitWhiteSpace (GeneratedDescription.content d) = words
    /\ GeneratedDescription.wordCount d = length words
    /\ 1 <= length words
    /\ Forall (fun word => word <> []) words.
Proof.
  intros Hd.
  assert (GeneratedDescription.wordCount d
          = length (splitWhiteSpace (GeneratedDescription.content d))) as Hcount.
  { revert Hd. unfold generateDescription.
    destruct reply as [completion|e]; [|by repeat case_bool_decide].
    destruct (trim <$> completion) as [[|c rest]|];
      [by repeat case_bool_decide| |by repeat case_bool_decide].
    by intros [= <-]. }
  pose proof (generated_content_trimmed _ _ _ _ Hd) as [Hne Htrim].
  eexists. split; [done|]. split; [done|].
  destruct (GeneratedDescription.content d) as [|c r] eqn:Hcontent; [done|].
  assert (isWhiteSpace c = false) as Hc by (by apply (trim_head _ _ _ Htrim)).
  destruct (splitWhiteSpaceFrom_words r) as ((piece & pieces & Hr & Hpieces) & _).
  { intros r' c' ->. apply (trim_last (c :: r' ++ [c']) (c :: r')). by rewrite Htrim. }
  unfold splitWhiteSpace. cbn [splitWhiteSpaceFrom]. rewrite Hc, Hr.
  split; [simpl; lia|]. by constructor.
Qed.

(** ** [split] *)
Section Split.
Implicit Types (s : list N) (sep c : N).

Lemma split_cons sep c s :
  split sep (c :: s)
  = if (c =? sep)%N then [] :: split sep s
    else match split sep s with
         | piece :: pieces => (c :: piece) :: pieces
         | [] => [[c]]
         end.
Proof. reflexivity. Qed.

Lemma split_length sep s :
  length (split sep s) = S (length (filter (fun c => c = sep) s)).
Proof.
  induction s as [|c s IH]; [done|].
  rewrite split_cons, filter_cons. destruct (N.eqb_spec c sep) as [->|Hc].
  - rewrite decide_True by done. simpl. by rewrite IH.
  - rewrite decide_False by done. destruct (split sep s); [done|]. by rewrite <- IH.
Qed.

Lemma split_pieces sep s : Forall (fun piece => sep ∉ piece) (split sep s).
Proof.
  induction s as [|c s IH].
  - repeat constructor. apply not_elem_of_nil.
  - rewrite split_cons. destruct (N.eqb_spec c sep) as [->|Hc].
    + constructor; [apply not_elem_of_nil | done].
    + destruct (split sep s) as [|piece pieces].
      * repeat constructor. by intros ->%list_elem_of_singleton.
      * inversion IH as [|?? Hpiece Hpieces]; subst. constructor; [|done].
        intros [->|H]%elem_of_cons; done.
Qed.

Lemma trim_subseteq s : trim s ⊆ s.
Proof.
  destruct (trimStart_decomp s) as (w & Hs & _).
  destruct (trimEnd_decomp (trimStart s)) as (w' & Hs' & _).
  intros c Hc. rewrite Hs, Hs'. apply elem_of_app. right. apply elem_of_app. by left.
Qed.
End Split.

(** When the response has a Keywords Used section, the keywords parsed
    from it are one more than the commas of the captured text; none of them
    holds a comma or has white space at either end. *)
Theorem parsed_keywords_are_clean (content g : jsstring) (productData : Product)
    (options : GenerationOptions.t) :
  match1 keywordsPattern content = Some g ->
  exists keywords,
    GeneratedDescription.keywords (parseResponse content productData options)
    = Some keywords
    /\ length keywords = S (length (filter (fun c => c = 44%N) g))
    /\ Forall (fun keyword => (44%N ∉ keyword) /\ trim keyword = keyword) keywords.
Proof.
  intros Hmatch. unfold parseResponse. cbn [GeneratedDescription.keywords].
  rewrite Hmatch. eexists. split; [done|]. split.
  - by rewrite length_map, split_length.
  - apply Forall_map. eapply Forall_impl; [apply split_pieces|].
    intros piece Hpiece. cbn beta. split; [|apply trim_idem].
    intros Hin. by apply Hpiece, trim_subseteq.
Qed.

Lemma parsed_keywords_are_clean_witness :
  exists keywords,
    GeneratedDescription.keywords (parseResponse Samples.tagged Samples.shoe Samples.noOptions)
    = Some keywords
    /\ length keywords = S (length (filter (fun c => c = 44%N) (js "trail, shoe")))
    /\ Forall (fun keyword => (44%N ∉ keyword) /\ trim keyword = keyword) keywords.
Proof.
  apply (parsed_keywords_are_clean Samples.tagged (js "trail, shoe")).
  vm_compute. reflexivity.
Defined.

Lemma seo_capture_witness :
  js "85" <> [] /\ Forall (fun c => isDigit c = true) (js "85")
  /\ exists before w after,
       Samples.tagged = before ++ js "**SEO Score:**" ++ w ++ js "85" ++ after
       /\ Forall (fun c => isWhiteSpace c = true) w
       /\ (forall c rest, after = c :: rest -> isDigit c = false).
Proof.
  apply (seo_capture Samples.tagged (js "85")). vm_compute. reflexivity.
Defined.

Lemma generated_content_is_text_witness :
  GeneratedDescription.content
    (parseResponse (js "A sturdy lamp.") Samples.lamp Samples.noOptions) <> [].
Proof.
  exact (proj1 (generated_content_is_text (Fulfilled (Some (js "A sturdy lamp.")))
                  Samples.lamp Samples.noOptions _ eq_refl)).
Defined.

Lemma generated_wordCount_counts_words_witness :
  exists words,
    splitWhiteSpace (GeneratedDescription.content
                       (parseResponse (js "A sturdy lamp.") Samples.lamp Samples.noOptions))
    = words
    /\ GeneratedDescription.wordCount
         (parseResponse (js "A sturdy lamp.") Samples.lamp Samples.noOptions)
       = length words
    /\ 1 <= length words
    /\ Forall (fun word => word <> []) words.
Proof.
  exact (generated_wordCount_counts_words (Fulfilled (Some (js "A sturdy lamp.")))
           Samples.lamp Samples.noOptions _ eq_refl).
Defined.

(** ** Throttling: what is in flight, and the barrier *)

Lemma invariant_accounts (replies : nat -> Reply) (products : list Product)
    (options : GenerationOptions.t) (s : state) :
  invariant replies products options s ->
  successful (job s) + failed (job s) <= length (issued s)
  /\ length (issued s) <= successful (job s) + failed (job s) + batchSize
  /\ (forall j, j ∈ issued s -> batchSize * (j / batchSize) <= length (results (job s))).
Proof.
  unfold invariant. destruct (pc s) as [i|i slots|].
  - intros (Hdiv & -> & ->). cbn [summary successful failed results].
    rewrite successes_failures, length_take, length_entriesFrom, length_seq.
    split_and!; [lia..|].
    intros j [_ Hj]%elem_of_seq.
    pose proof (Nat.Div0.mul_div_le j batchSize). lia.
  - intros (Hdiv & Hi & Hslots & _ & Hr & Hs & Hf & ->).
    apply Forall2_length in Hslots.
    rewrite length_indexed, length_slice in Hslots.
    pose proof (length_doneOf slots) as Hdone.
    pose proof (successes_failures (doneOf slots)) as Hsf.
    pose proof (successes_failures (take i (entriesFrom replies options 0 products))) as Htake.
    rewrite length_take, length_entriesFrom in Htake.
    rewrite Hr, length_take, length_entriesFrom, length_seq.
    split_and!; [unfold batchSize in *; lia..|].
    intros j [_ Hj]%elem_of_seq.
    destruct Hdiv as [c ->].
    unfold batchSize in *.
    assert (j / 5 < S c) as Hc by (apply Nat.Div0.div_lt_upper_bound; lia).
    lia.
  - intros (-> & ->). cbn [summary successful failed results].
    rewrite successes_failures, length_take, length_entriesFrom, length_seq.
    split_and!; [lia..|].
    intros j [_ Hj]%elem_of_seq.
    pose proof (Nat.Div0.mul_div_le j batchSize). lia.
Qed.

(** At any moment the calls made and not yet settled are at most one chunk:
    no settlement comes before its call, and never more than [batchSize]
    calls are in flight. *)
Theorem batch_in_flight_bound (replies : nat -> Reply) (products : list Product)
    (options : GenerationOptions.t) (s : state) :
  reachable replies products options s ->
  successful (job s) + failed (job s) <= length (issued s)
  /\ length (issued s) - (successful (job s) + failed (job s)) <= batchSize.
Proof.
  intros Hs. apply invariant_reachable, invariant_accounts in Hs as (H1 & H2 & _).
  lia.
Qed.

Lemma batch_in_flight_bound_witness :
  successful (job Samples.midway) + failed (job Samples.midway)
  <= length (issued Samples.midway)
  /\ length (issued Samples.midway)
     - (successful (job Samples.midway) + failed (job Samples.midway)) <= batchSize.
Proof.
  exact (batch_in_flight_bound Samples.replies [Samples.shoe; Samples.lamp]
           Samples.noOptions Samples.midway sample_midway_reachable).
Defined.

(** The barrier between chunks: when the call for input index [j] has been
    made, [results] already holds the entries of every earlier chunk, that
    is of all the indices below the start of [j]'s chunk. *)
Theorem batch_chunk_barrier (replies : nat -> Reply) (products : list Product)
    (options : GenerationOptions.t) (s : state) (j : nat) :
  reachable replies products options s -> j ∈ issued s ->
  batchSize * (j / batchSize) <= length (results (job s)).
Proof.
  intros Hs Hj. apply invariant_reachable, invariant_accounts in Hs as (_ & _ & H).
  by apply H.
Qed.

Lemma sample_secondChunk_reachable :
  reachable Samples.replies (replicate 6 Samples.lamp) Samples.noOptions
    Samples.secondChunk.
Proof.
  unfold reachable.
  eapply rtc_l.
  { apply (step_enter _ (replicate 6 Samples.lamp) _ 0). simpl. lia. }
  etrans.
  { rewrite imap_indexed.
    apply (runBatch_steps Samples.replies (replicate 6 Samples.lamp) Samples.noOptions
             0 0 (slice 0 (0 + batchSize) (replicate 6 Samples.lamp)) []). }
  eapply rtc_l; [apply step_barrier|].
  eapply rtc_l.
  { apply (step_enter _ (replicate 6 Samples.lamp) _ 5). simpl. lia. }
  apply rtc_refl.
Qed.

Lemma batch_chunk_barrier_witness :
  batchSize * (5 / batchSize) <= length (results (job Samples.secondChunk)).
Proof.
  apply (batch_chunk_barrier Samples.replies (replicate 6 Samples.lamp)
           Samples.noOptions Samples.secondChunk 5 sample_secondChunk_reachable).
  vm_compute. apply list_elem_of_In. simpl. tauto.
Defined.

(** ** What a failed generation looks like *)

(** Every way [generateDescription] fails is an [ExternalServiceError] with
    one of three fixed messages: the text of the upstream error is kept in
    the details only. *)
Lemma generateDescription_rejected (reply : Reply) (productData : Product)
    (options : GenerationOptions.t) (e : AppError) :
  generateDescription reply productData options = Rejected e ->
  exists text details,
    text ∈ [js "API quota exceeded"; js "Rate limit exceeded";
            js "Failed to generate description"]
    /\ e = ExternalServiceError (js "OpenAI") text (Some (VObject details)).
Proof.
  unfold generateDescription.
  set (attempt := match reply with Fulfilled _ => _ | Rejected _ => _ end).
  destruct attempt as [d|error]; [done|].
  repeat case_bool_decide; intros [= <-]; eexists _, _; (split; [|reflexivity]);
    set_solver.
Qed.

Lemma recognize_CustomError message statusCode code details :
  recognize (CustomError message statusCode code details)
  = CustomError message statusCode code details.
Proof. apply recognize_unrecognized. reflexivity. Qed.

(** A failure of [generateDescription] that reaches the error handler is
    answered with status 502 and the code "EXTERNAL_SERVICE_ERROR"; the
    body carries the fixed message and the details. *)
Theorem generation_failure_is_bad_gateway (reply : Reply) (productData : Product)
    (options : GenerationOptions.t) (e : AppError) (env : Env) (req : Request) :
  generateDescription reply productData options = Rejected e ->
  status (errorHandler env e req) = 502%Z
  /\ body (errorHandler env e req) !! js "code"
     = Some (VString (js "EXTERNAL_SERVICE_ERROR"))
  /\ body (errorHandler env e req) !! js "error" = Some (VString (message e))
  /\ is_Some (body (errorHandler env e req) !! js "details").
Proof.
  intros (text & details & _ & ->)%generateDescription_rejected.
  unfold ExternalServiceError, errorHandler. rewrite recognize_CustomError.
  cbn [body status]. split_and!.
  - done.
  - through_assignments. by rewrite lookup_insert_eq.
  - through_assignments. by rewrite lookup_insert_eq.
  - through_assignments. rewrite assignIf_lookup_eq. by eexists.
Qed.

Lemma generation_failure_is_bad_gateway_witness :
  status (errorHandler Samples.production
            (ExternalServiceError (js "OpenAI") (js "Failed to generate description")
               (Some (VObject [ (js "error", VString (js "No content generated from OpenAI"));
                                (js "productTitle", VString (js "Trail shoe")) ])))
            Samples.getProducts) = 502%Z.
Proof.
  exact (proj1 (generation_failure_is_bad_gateway (Fulfilled None) Samples.shoe
                  Samples.noOptions _ Samples.production Samples.getProducts eq_refl)).
Defined.

Lemma invariant_results_prefix (replies : nat -> Reply) (products : list Product)
    (options : GenerationOptions.t) (s : state) :
  invariant replies products options s ->
  exists n, results (job s) = take n (entriesFrom replies options 0 products).
Proof.
  unfold invariant. destruct (pc s) as [i|i slots|].
  - intros (_ & -> & _). by exists i.
  - intros (_ & _ & _ & _ & -> & _). by exists i.
  - intros (-> & _). by exists (length products).
Qed.

(** Every entry of [results], at any moment, is either a success with its
    description and no error, or a failure with no description and one of
    the three fixed messages as its error. *)
Theorem batch_outcome_shape (replies : nat -> Reply) (products : list Product)
    (options : GenerationOptions.t) (s : state) (entry : Outcome) :
  reachable replies products options s -> entry ∈ results (job s) ->
  (success entry = true /\ is_Some (description entry) /\ error entry = None)
  \/ (success entry = false /\ description entry = None
      /\ exists text,
           text ∈ [js "API quota exceeded"; js "Rate limit exceeded";
                   js "Failed to generate description"]
           /\ error entry = Some (js "OpenAI service error: " ++ text)).
Proof.
  intros [n Hn]%invariant_reachable%invariant_results_prefix. rewrite Hn.
  intros Hentry%subseteq_take. unfold entriesFrom in Hentry.
  apply list_elem_of_fmap in Hentry as ([k product] & -> & _).
  cbn [uncurry]. rewrite entryOf_spec.
  destruct (generateDescription _ _ _) as [d|e] eqn:Hgen.
  - left. by eauto.
  - right. apply generateDescription_rejected in Hgen as (text & details & Htext & ->).
    split_and!; [done..|]. by exists text.
Qed.

Lemma batch_outcome_shape_witness :
  (success Samples.lampEntry = true /\ is_Some (description Samples.lampEntry)
   /\ error Samples.lampEntry = None)
  \/ (success Samples.lampEntry = false /\ description Samples.lampEntry = None
      /\ exists text,
           text ∈ [js "API quota exceeded"; js "Rate limit exceeded";
                   js "Failed to generate description"]
           /\ error Samples.lampEntry = Some (js "OpenAI service error: " ++ text)).
Proof.
  apply (batch_outcome_shape Samples.replies [Samples.shoe; Samples.lamp]
           Samples.noOptions Samples.finished Samples.lampEntry
           sample_finished_reachable).
  apply list_elem_of_In. simpl. tauto.
Defined.

(** ** More of the error handler *)

(** A request for a route that does not exist, passed by [notFoundHandler]
    to [errorHandler], is answered with status 404, the code
    "NOT_FOUND_ERROR", a message naming the method and the URL, the
    suggestion for 404 and no details. *)
Theorem unknown_route_answer (env : Env) (originalUrl : jsstring) (req : Request) :
  let res := errorHandler env (notFoundHandler originalUrl req) req in
  status res = 404%Z
  /\ body res !! js "code" = Some (VString (js "NOT_FOUND_ERROR"))
  /\ body res !! js "error"
     = Some (VString (js "Route " ++ method req ++ js " " ++ originalUrl ++ js " not found"))
  /\ body res !! js "suggestion"
     = Some (VString (js "Verify the resource exists and the URL is correct"))
  /\ body res !! js "details" = None.
Proof.
  cbn zeta. unfold notFoundHandler, NotFoundError, errorHandler.
  rewrite recognize_CustomError. cbn [body status]. split_and!.
  - done.
  - through_assignments. by rewrite lookup_insert_eq.
  - through_assignments. by rewrite lookup_insert_eq.
  - rewrite json_lookup, assignIf_lookup_eq. done.
  - through_assignments. rewrite assignIf_lookup_eq. cbn [details CustomError isTruthy].
    through_assignments. by rewrite lookup_empty.
Qed.

(** An error made with [CustomError], or one of its six subclasses, comes
    back as it was made: the status, the code and the message of the
    response are the constructor's arguments, and the details too when
    they are truthy. *)
Theorem custom_error_round_trip (env : Env) (message : jsstring) (statusCode : Z)
    (code : jsstring) (details : option value) (req : Request) :
  message <> [] -> statusCode <> 0%Z -> code <> [] ->
  let res := errorHandler env (CustomError message (Some statusCode) (Some code) details)
               req in
  status res = statusCode
  /\ body res !! js "code" = Some (VString code)
  /\ body res !! js "error" = Some (VString message)
  /\ body res !! js "details" = (if isTruthy details then jsonValue <$> details else None).
Proof.
  intros Hmessage Hstatus Hcode. cbn zeta. unfold errorHandler.
  rewrite recognize_CustomError. cbn [body status ErrorHandler.statusCode CustomError default
    from_option ErrorHandler.code ErrorHandler.message ErrorHandler.details].
  unfold Datatypes.id.
  rewrite (proj2 (Z.eqb_neq statusCode 0)) by done.
  unfold orElse.
  rewrite (bool_decide_eq_false_2 (code = [])) by done.
  rewrite (bool_decide_eq_false_2 (message = [])) by done.
  split_and!.
  - done.
  - through_assignments. by rewrite lookup_insert_eq.
  - through_assignments. by rewrite lookup_insert_eq.
  - through_assignments. rewrite assignIf_lookup_eq.
    destruct details as [d|]; cbn [isTruthy].
    + destruct (truthy d) eqn:Ht.
      * cbn [orUndefined default from_option mbind option_bind fmap option_fmap option_map].
        by rewrite truthy_jsonProperty.
      * through_assignments. by rewrite lookup_empty.
    + through_assignments. by rewrite lookup_empty.
Qed.

Lemma custom_error_round_trip_witness :
  status (errorHandler Samples.production
            (ValidationError (js "Validation failed")
               (Some (VObject [(js "errors", VString (js "title is required"))])))
            Samples.getProducts) = 400%Z.
Proof.
  refine (proj1 (custom_error_round_trip Samples.production (js "Validation failed") 400
                   (js "VALIDATION_ERROR")
                   (Some (VObject [(js "errors", VString (js "title is required"))]))
                   Samples.getProducts _ _ _));
    vm_compute; discriminate.
Defined.

(** For an error that none of the tests of [errorHandler] recognizes,
    [developmentErrorHandler] sends the same status and the same code as
    [errorHandler], the same message unless it is empty, and the same
    details when they are truthy. *)
Theorem developmentErrorHandler_agrees (env : Env) (error : AppError)
    (url : jsstring) (reqBody params query : value) (req : Request) :
  recognized error = false ->
  let dev := developmentErrorHandler env error url reqBody params query req in
  let res := errorHandler env error req in
  status dev = status res
  /\ body dev !! js "code" = body res !! js "code"
  /\ (ErrorHandler.message error <> [] -> body dev !! js "error" = body res !! js "error")
  /\ (isTruthy (ErrorHandler.details error) = true ->
      body dev !! js "details" = body res !! js "details").
Proof.
  intros Hrec. cbn zeta. unfold developmentErrorHandler, errorHandler.
  rewrite (recognize_unrecognized _ Hrec). cbn [body status]. split_and!.
  - done.
  - through_assignments. by rewrite !lookup_insert_eq.
  - intros Hmessage. through_assignments. rewrite !lookup_insert_eq.
    unfold orElse.
    by rewrite (bool_decide_eq_false_2 (ErrorHandler.message error = [])) by done.
  - intros Hdetails. through_assignments. rewrite assignIf_lookup_eq, Hdetails.
    by rewrite lookup_insert_eq.
Qed.

Lemma developmentErrorHandler_agrees_witness :
  status (developmentErrorHandler Samples.production Samples.boom (js "/api/products")
            VUndefined VUndefined VUndefined Samples.getProducts)
  = status (errorHandler Samples.production Samples.boom Samples.getProducts).
Proof.
  exact (proj1 (developmentErrorHandler_agrees Samples.production Samples.boom
                  (js "/api/products") VUndefined VUndefined VUndefined
                  Samples.getProducts eq_refl)).
Defined.

(** The body has a [suggestion] exactly when the status is 404, 403 or 429,
    and the status decides its text. *)
Theorem errorHandler_suggestion (env : Env) (error : AppError) (req : Request) :
  let res := errorHandler env error req in
  body res !! js "suggestion"
  = if (status res =? 404)%Z
    then Some (VString (js "Verify the resource exists and the URL is correct"))
    else if (status res =? 403)%Z
    then Some (VString (js "Check your permissions or upgrade your plan"))
    else if (status res =? 429)%Z
    then Some (VString (js "Please try again after some time"))
    else None.
Proof.
  cbn zeta. unfold errorHandler. cbn [body status].
  rewrite json_lookup, !assignIf_lookup_eq.
  destruct (_ =? 404)%Z; [done|]. destruct (_ =? 403)%Z; [done|].
  destruct (_ =? 429)%Z; [done|].
  through_assignments. by rewrite lookup_empty.
Qed.

(** ** Plans *)
Section Plans.
Import Auth.

Lemma planHierarchy_lookup (plan : jsstring) :
  planHierarchy !! plan
  = if bool_decide (plan = js "basic") then Some 0%float
    else if bool_decide (plan = js "pro") then Some 1%float
    else if bool_decide (plan = js "enterprise") then Some 2%float
    else None.
Proof.
  unfold planHierarchy.
  destruct (decide (plan = js "basic")) as [->|Hbasic]; [by vm_compute|].
  destruct (decide (plan = js "pro")) as [->|Hpro]; [by vm_compute|].
  destruct (decide (plan = js "enterprise")) as [->|Henterprise]; [by vm_compute|].
  rewrite (bool_decide_eq_false_2 (plan = js "basic")) by done.
  rewrite (bool_decide_eq_false_2 (plan = js "pro")) by done.
  rewrite (bool_decide_eq_false_2 (plan = js "enterprise")) by done.
  rewrite !lookup_insert_ne by done. by apply lookup_singleton_ne.
Qed.

Lemma planLevel_cases (plan : jsstring) :
  planLevel plan
  = if bool_decide (plan = js "pro") then Level 1
    else if bool_decide (plan = js "enterprise") then Level 2
    else if bool_decide (plan ∈ objectPrototypeKeys) then InheritedMember plan
    else Level (-1).
Proof.
  unfold planLevel, getProperty. rewrite planHierarchy_lookup.
  destruct (decide (plan = js "basic")) as [->|Hbasic]; [by vm_compute|].
  destruct (decide (plan = js "pro")) as [->|Hpro]; [by vm_compute|].
  destruct (decide (plan = js "enterprise")) as [->|Henterprise]; [by vm_compute|].
  rewrite (bool_decide_eq_false_2 (plan = js "basic")) by done.
  rewrite !(bool_decide_eq_false_2 (plan = js "pro")) by done.
  rewrite !(bool_decide_eq_false_2 (plan = js "enterprise")) by done.
  by case_bool_decide.
Qed.
End Plans.

(** [requirePlan(requiredPlan)] for a required plan that is no member name
    of [Object.prototype]: the user is let through exactly when nothing
    above basic is required, or the user is on enterprise, or on pro when
    pro is required, or the user's plan is named like a member of
    [Object.prototype].  Basic counts like an unknown plan, its level 0
    being replaced by -1. *)
Theorem requirePlan_decision (inheritedLess : jsstring -> jsstring -> bool)
    (requiredPlan : jsstring) (user : Auth.User) :
  requiredPlan ∉ objectPrototypeKeys ->
  Auth.requirePlan inheritedLess requiredPlan (Some user) = Auth.Next
  <-> (requiredPlan <> js "pro" /\ requiredPlan <> js "enterprise")
      \/ Auth.plan user = js "enterprise"
      \/ (Auth.plan user = js "pro" /\ requiredPlan = js "pro")
      \/ Auth.plan user ∈ objectPrototypeKeys.
Proof.
  intros Hrequired. unfold Auth.requirePlan. rewrite !planLevel_cases.
  rewrite (bool_decide_eq_false_2 (requiredPlan ∈ _)) by done.
  assert (js "pro" ∉ objectPrototypeKeys) as Hpro
    by (apply (bool_decide_eq_false_1 _); vm_compute; reflexivity).
  assert (js "enterprise" ∉ objectPrototypeKeys) as Hent
    by (apply (bool_decide_eq_false_1 _); vm_compute; reflexivity).
  assert (js "pro" <> js "enterprise") as Hne by (vm_compute; discriminate).
  repeat case_bool_decide; cbn [Auth.lessThan];
    try vm_compute (PrimFloat.ltb _ _); cbv beta iota;
    try (exfalso; congruence);
    (split; [intros Hnext; first [discriminate Hnext | tauto]
            |intros Hcases; first [reflexivity | exfalso; intuition congruence]]).
Qed.

Lemma requirePlan_decision_witness :
  Auth.requirePlan (fun _ _ => false) (js "basic") (Some Samples.freeUser) = Auth.Next.
Proof.
  apply (requirePlan_decision (fun _ _ => false) (js "basic") Samples.freeUser).
  - apply (bool_decide_eq_false_1 _). vm_compute. reflexivity.
  - left. split; vm_compute; discriminate.
Defined.

Lemma planHierarchy_known (plan : jsstring) (n : float) :
  Auth.planHierarchy !! plan = Some n ->
  (plan = js "basic" /\ n = 0%float) \/ (plan = js "pro" /\ n = 1%float)
  \/ (plan = js "enterprise" /\ n = 2%float).
Proof.
  rewrite planHierarchy_lookup. repeat case_bool_decide; intros [= <-]; tauto.
Qed.

(** A feature open to a plan is open to every plan above it in the
    hierarchy of [requirePlan]: the two tables of the middleware agree. *)
Theorem requireFeature_follows_hierarchy (feature : jsstring) (user user' : Auth.User)
    (n n' : float) :
  Auth.planHierarchy !! Auth.plan user = Some n ->
  Auth.planHierarchy !! Auth.plan user' = Some n' ->
  PrimFloat.leb n n' = true ->
  Auth.requireFeature feature (Some user) = Auth.Next ->
  Auth.requireFeature feature (Some user') = Auth.Next.
Proof.
  intros Hn Hn' Hle.
  apply planHierarchy_known in Hn as [[Hp ->]|[[Hp ->]|[Hp ->]]];
    apply planHierarchy_known in Hn' as [[Hp' ->]|[[Hp' ->]|[Hp' ->]]];
    try (vm_compute in Hle; discriminate Hle);
    unfold Auth.requireFeature; rewrite Hp, Hp';
    vm_compute (getProperty _ _); unfold includes;
    repeat case_bool_decide; try done;
    match goal with
    | Hin : _ ∈ _, Hout : _ ∉ _ |- _ =>
        exfalso; apply Hout; revert Hin; rewrite !elem_of_cons; tauto
    end.
Qed.

Lemma requireFeature_follows_hierarchy_witness :
  Auth.requireFeature (js "bulkGeneration")
    (Some Samples.proUser)
  = Auth.Next.
Proof.
  apply (requireFeature_follows_hierarchy (js "bulkGeneration") Samples.basicUser
           Samples.proUser
           0%float 1%float); reflexivity.
Defined.

(** ** Authentication *)
Section Authentication.
Import Auth.
Variable verify : jsstring -> jsstring -> settled value.
Variable findUnique : value -> settled (option DbUser).
Variable isJsonWebTokenError : AppError -> bool.
Variable isTokenExpiredError : AppError -> bool.
Variable jwtSecret : jsstring.

Local Abbreviation authenticateToken' :=
  (authenticateToken verify findUnique isJsonWebTokenError isTokenExpiredError jwtSecret).
Local Abbreviation optionalAuth' := (optionalAuth verify findUnique jwtSecret).

(** What stands behind a user record found for a token. *)
Lemma lookupUser_found (token : jsstring) (user : DbUser) :
  lookupUser verify findUnique jwtSecret token = Fulfilled (Some user) ->
  exists decoded userId,
    verify token jwtSecret = Fulfilled decoded
    /\ userIdOf decoded = Fulfilled userId
    /\ findUnique userId = Fulfilled (Some user).
Proof.
  unfold lookupUser. destruct (verify token jwtSecret) as [decoded|e]; [|done].
  destruct (userIdOf decoded) as [userId|e] eqn:HuserId; [|done].
  intros Hfound. by exists decoded, userId.
Qed.

Lemma tokenOf_found (authHeader : option value) (token : jsstring) :
  tokenOf authHeader = Fulfilled (Some token) ->
  exists header, authHeader = Some (VString header) /\ split 32 header !! 1 = Some token.
Proof.
  unfold tokenOf.
  destruct authHeader as [[| |b|n|[|c s]|fields]|]; cbn [truthy]; try done;
    try (by destruct (_ : bool)).
  intros [= Htoken]. by eauto.
Qed.

Lemma authenticateToken_proceeds (req : Request) (user : option User) :
  authenticateToken' req = Proceeds user ->
  exists header token dbUser,
    headers req !! js "authorization" = Some (VString header)
    /\ split 32 header !! 1 = Some token /\ token <> []
    /\ lookupUser verify findUnique jwtSecret token = Fulfilled (Some dbUser)
    /\ user = Some (attach dbUser)
    /\ (path req ∈ publicEndpoints \/ dbSubscriptionStatus dbUser = js "active").
Proof.
  unfold authenticateToken.
  destruct (tokenOf _) as [[[|c rest]|]|e] eqn:Htoken.
  - done.
  - destruct (lookupUser _ _ _ _) as [[dbUser|]|e] eqn:Hlookup.
    + apply tokenOf_found in Htoken as (header & Hheader & Htoken).
      unfold includes.
      case_bool_decide as Hpath; cbn [negb andb].
      * intros [= <-]. exists header, (c :: rest), dbUser. split_and!; try done. by left.
      * case_bool_decide as Hactive; cbn [negb]; [|done].
        intros [= <-]. exists header, (c :: rest), dbUser. split_and!; try done. by right.
    + done.
    + by destruct (isJsonWebTokenError e), (isTokenExpiredError e).
  - done.
  - by destruct (isJsonWebTokenError e), (isTokenExpiredError e).
Qed.

Lemma optionalAuth_proceeds (req : Request) :
  exists user, optionalAuth' req = Proceeds user.
Proof.
  unfold optionalAuth.
  destruct (tokenOf _) as [[[|c rest]|]|e]; try by eexists.
  destruct (lookupUser _ _ _ _) as [[dbUser|]|e]; by eexists.
Qed.
End Authentication.

(** [authenticateToken] calls [next()] only for a request whose
    authorization header is a string with a non-empty second piece, which
    [jwt.verify] accepted and whose user id the database knows; the user
    attached is that record's, and unless the path is one of the two public
    ones the subscription is active. *)
Theorem authenticateToken_admits
    (verify : jsstring -> jsstring -> settled value)
    (findUnique : value -> settled (option Auth.DbUser))
    (isJsonWebTokenError isTokenExpiredError : AppError -> bool)
    (jwtSecret : jsstring) (req : Request) (user : option Auth.User) :
  Auth.authenticateToken verify findUnique isJsonWebTokenError isTokenExpiredError
    jwtSecret req = Auth.Proceeds user ->
  exists header token decoded userId dbUser,
    headers req !! js "authorization" = Some (VString header)
    /\ split 32 header !! 1 = Some token /\ token <> []
    /\ verify token jwtSecret = Fulfilled decoded
    /\ Auth.userIdOf decoded = Fulfilled userId
    /\ findUnique userId = Fulfilled (Some dbUser)
    /\ user = Some (Auth.attach dbUser)
    /\ (path req ∈ Auth.publicEndpoints
        \/ Auth.dbSubscriptionStatus dbUser = js "active").
Proof.
  intros (header & token & dbUser & Hheader & Htoken & Hne & Hlookup & Huser & Hactive)
    %authenticateToken_proceeds.
  apply lookupUser_found in Hlookup as (decoded & userId & Hverify & HuserId & Hfound).
  exists header, token, decoded, userId, dbUser. by split_and!.
Qed.

Lemma authenticateToken_admits_witness :
  exists header token decoded userId dbUser,
    headers Samples.bearer !! js "authorization" = Some (VString header)
    /\ split 32 header !! 1 = Some token /\ token <> []
    /\ Samples.verifyAny token (js "secret") = Fulfilled decoded
    /\ Auth.userIdOf decoded = Fulfilled userId
    /\ Samples.findActive userId = Fulfilled (Some dbUser)
    /\ Some Samples.basicUser = Some (Auth.attach dbUser)
    /\ (path Samples.bearer ∈ Auth.publicEndpoints
        \/ Auth.dbSubscriptionStatus dbUser = js "active").
Proof.
  apply (authenticateToken_admits Samples.verifyAny Samples.findActive Samples.never Samples.never
           (js "secret") Samples.bearer (Some Samples.basicUser)).
  vm_compute. reflexivity.
Defined.

(** [optionalAuth] never answers the request itself: it always calls
    [next()], and where [authenticateToken] would let the request through
    it attaches the same user. *)
Theorem optionalAuth_always_proceeds
    (verify : jsstring -> jsstring -> settled value)
    (findUnique : value -> settled (option Auth.DbUser))
    (isJsonWebTokenError isTokenExpiredError : AppError -> bool)
    (jwtSecret : jsstring) (req : Request) :
  (exists user, Auth.optionalAuth verify findUnique jwtSecret req = Auth.Proceeds user)
  /\ (forall user,
        Auth.authenticateToken verify findUnique isJsonWebTokenError isTokenExpiredError
          jwtSecret req = Auth.Proceeds user ->
        Auth.optionalAuth verify findUnique jwtSecret req = Auth.Proceeds user).
Proof.
  split; [apply optionalAuth_proceeds|].
  intros user (header & token & dbUser & Hheader & Htoken & Hne & Hlookup & -> & _)
    %authenticateToken_proceeds.
  unfold Auth.optionalAuth, Auth.tokenOf. rewrite Hheader.
  destruct header as [|h header]; [done|]. cbv beta iota.
  unfold jsstring in *. rewrite Htoken.
  destruct token as [|c rest]; [done|]. by rewrite Hlookup.
Qed.

(** ** The configuration check *)

Lemma isSet_spec (env : gmap jsstring jsstring) (key : jsstring) :
  Config.isSet env key = true <-> exists c s, env !! key = Some (c :: s).
Proof.
  unfold Config.isSet. destruct (env !! key) as [[|c s]|]; split; try done.
  - by intros (c & s & ?).
  - by eauto.
  - by intros (c & s & ?).
Qed.

(** [validateConfig] passes exactly when the four required variables are
    set to non-empty strings; when it throws, the message is the one about
    missing variables and names every missing one, never the one about a
    plan's price. *)
Theorem validateConfig_passes_iff (env : gmap jsstring jsstring) :
  (Config.validateConfig env = Fulfilled tt
   <-> Forall (fun key => exists c s, env !! key = Some (c :: s)) Config.requiredVariables)
  /\ (forall e, Config.validateConfig env = Rejected e ->
       exists missing,
         missing <> []
         /\ (forall key, key ∈ missing
                         <-> key ∈ Config.requiredVariables /\ Config.isSet env key = false)
         /\ message e = js "Missing required environment variables: "
                        ++ join (js ", ") missing).
Proof.
  unfold Config.validateConfig.
  set (missing := filter _ _).
  assert (forall key, key ∈ missing
                      <-> key ∈ Config.requiredVariables /\ Config.isSet env key = false)
    as Hmissing.
  { intros key. unfold missing. rewrite list_elem_of_filter. tauto. }
  change (find _ Config.planEntries) with (@None (jsstring * Config.Plan)).
  case_bool_decide as Hlen; cbv beta iota.
  - split.
    + split; [done|]. intros Hall. exfalso.
      destruct missing as [|key rest]; [simpl in Hlen; lia|].
      destruct (proj1 (Hmissing key)) as [Hkey Hunset]; [by left|].
      rewrite Forall_forall in Hall. apply Hall, isSet_spec in Hkey. congruence.
    + intros e [= <-]. exists missing. split_and!; [|done|done].
      intros Hnil. rewrite Hnil in Hlen. simpl in Hlen. lia.
  - split; [|done]. split; [|done]. intros _.
    apply Forall_forall. intros key Hkey. apply isSet_spec.
    destruct (Config.isSet env key) eqn:Hset; [done|].
    assert (key ∈ missing) as Hin by (by apply Hmissing).
    destruct missing; [by apply elem_of_nil in Hin|]. simpl in Hlen. lia.
Qed.

(** ** The bulk update of a store *)
Section BulkUpdate.
Import ShopifyService.
Variable ShopifyProduct : Type.
Variable replies : nat -> settled ShopifyProduct.
Variable updates : list Update.t.

Local Abbreviation all := (indexed 0 updates).
Local Abbreviation chunk i := (indexed i (slice i (i + ShopifyService.batchSize) updates)).
Local Abbreviation steps := (rtc (ShopifyService.step ShopifyProduct replies updates)).
Local Abbreviation accounts' := (accounts ShopifyProduct replies).
Local Abbreviation settle' := (ShopifyService.settle ShopifyProduct).
Implicit Types (slots : list (ShopifyService.slot))
  (items : list (nat * Update.t)) (r : BulkUpdateResult).

Lemma accounts_perm items items' r :
  items ≡ₚ items' -> accounts' items r -> accounts' items' r.
Proof.
  intros Hperm (Hcount & Hfailed & Herrors). split_and!; [|done|].
  - by rewrite <- Hperm.
  - by rewrite <- Hperm.
Qed.

(** One settlement adds its update to the tally. *)
Lemma accounts_settle items r (item : nat * Update.t) :
  accounts' items r ->
  accounts' (items ++ [item]) (settle' (replies item.1) item.2 r).1.
Proof.
  intros (Hcount & Hfailed & Herrors).
  unfold accounts, ShopifyService.settle. rewrite omap_app, length_app. cbn [omap list_omap].
  unfold errorOf at 2.
  destruct (updateProductDescription _ _ _ _) as [product|e];
    cbn [fst ShopifyService.success ShopifyService.failed errors length].
  - rewrite app_nil_r. split_and!; [lia|done|done].
  - rewrite length_app. cbn [length]. split_and!; [lia|lia|]. by rewrite Herrors.
Qed.

Lemma settledItems_app slots1 slots2 items1 items2 :
  length slots1 = length items1 ->
  settledItems (slots1 ++ slots2) (items1 ++ items2)
  = settledItems slots1 items1 ++ settledItems slots2 items2.
Proof.
  revert items1. induction slots1 as [|[k u|res] slots1 IH]; intros [|item items1] Hlen;
    try done; simpl in *; [|f_equal]; apply IH; lia.
Qed.

Lemma settledItems_Pending items :
  settledItems (uncurry (Pending) <$> items) items = [].
Proof. induction items as [|[k u] items IH]; [done|]. by simpl. Qed.

Lemma settledItems_Done (rs : list (PromiseResult)) items :
  length rs = length items ->
  settledItems (Done <$> rs) items = items.
Proof.
  revert items. induction rs as [|res rs IH]; intros [|item items] Hlen; try done.
  simpl in *. f_equal. apply IH. lia.
Qed.

Lemma bulk_slotOk_Pending items :
  Forall2 (slotOk) (uncurry (Pending) <$> items) items.
Proof.
  apply Forall2_fmap_l, Forall_Forall2_diag, Forall_forall. by intros [k u] _.
Qed.

Lemma take_all_chunk i :
  take i all ++ chunk i = take (i + ShopifyService.batchSize) all.
Proof.
  unfold slice. replace (i + ShopifyService.batchSize - i) with ShopifyService.batchSize by lia.
  rewrite indexed_take.
  replace (indexed i (drop i updates)) with (drop i all)
    by (symmetry; apply (indexed_drop 0 i)).
  apply take_take_drop.
Qed.

Lemma bulk_invariant_step s s' :
  ShopifyService.step ShopifyProduct replies updates s s' ->
  ShopifyService.invariant ShopifyProduct replies updates s ->
  ShopifyService.invariant ShopifyProduct replies updates s'.
Proof.
  unfold ShopifyService.invariant.
  destruct 1 as [i r Hi|i r Hi|i before index update after r|i rs r];
    cbn [ShopifyService.pc ShopifyService.job].
  - intros Hacc. rewrite imap_indexed. split; [apply bulk_slotOk_Pending|].
    by rewrite settledItems_Pending, app_nil_r.
  - intros Hacc. rewrite take_ge in Hacc; [done|]. rewrite length_indexed. lia.
  - intros [Hslots Hacc].
    apply Forall2_app_inv_l in Hslots as (items1 & items2 & H1 & H2 & Hitems).
    apply Forall2_cons_inv_l in H2 as (item & items3 & Hok & H3 & ->).
    cbn [slotOk] in Hok. subst item. rewrite Hitems in Hacc |- *.
    pose proof (Forall2_length _ _ _ H1) as Hlen.
    split; [apply Forall2_app; [done|]; by constructor|].
    rewrite settledItems_app in Hacc |- * by done. cbn [settledItems] in Hacc |- *.
    apply (accounts_settle _ _ (index, update)) in Hacc.
    eapply accounts_perm; [|exact Hacc].
    rewrite <- !app_assoc. do 2 f_equiv. by rewrite Permutation_app_comm.
  - intros [Hslots Hacc]. apply Forall2_length in Hslots.
    rewrite length_fmap in Hslots. rewrite settledItems_Done in Hacc by done.
    by rewrite take_all_chunk in Hacc.
Qed.

Lemma bulk_invariant_reachable s :
  ShopifyService.reachable ShopifyProduct replies updates s ->
  ShopifyService.invariant ShopifyProduct replies updates s.
Proof.
  unfold ShopifyService.reachable. revert s. apply rtc_ind_r.
  - by split_and!.
  - intros s s' _ Hstep IH. by eapply bulk_invariant_step.
Qed.

(** *** The loop function is one execution of the event model *)

Lemma bulk_runBatch_steps i k batch (before : list PromiseResult) r :
  exists rs,
    steps (mkState
             (Awaiting i ((Done <$> before)
                ++ (uncurry (Pending) <$> indexed k batch))) r)
          (mkState (Awaiting i (Done <$> rs))
             (ShopifyService.runBatch ShopifyProduct replies k batch r)).
Proof.
  revert k before r. induction batch as [|update batch IH]; intros k before r.
  - exists before. simpl. by rewrite app_nil_r.
  - cbn [ShopifyService.runBatch]. rewrite indexed_cons. cbn [fmap list_fmap uncurry].
    destruct (IH (S k) (before ++ [(settle' (replies k) update r).2])
                (settle' (replies k) update r).1) as [rs Hrs].
    exists rs. eapply rtc_l; [apply step_settle|].
    rewrite fmap_app, <- app_assoc in Hrs. exact Hrs.
Qed.

Lemma bulk_loop_steps fuel i r r' :
  ShopifyService.loop ShopifyProduct fuel replies updates i r = Some r' ->
  steps (mkState (LoopHead i) r)
        (mkState Returned r').
Proof.
  revert i r. induction fuel as [|fuel IH]; intros i r; [done|].
  cbn [ShopifyService.loop]. case_bool_decide as Hi.
  - intros Hloop%IH.
    destruct (bulk_runBatch_steps i i (slice i (i + ShopifyService.batchSize) updates) [] r)
      as [rs Hrs].
    eapply rtc_l; [by apply step_enter|]. rewrite imap_indexed.
    etrans; [apply Hrs|]. eapply rtc_l; [apply step_barrier | done].
  - intros [= ->]. by apply rtc_once, step_exit.
Qed.

Lemma bulk_loop_returns fuel i r :
  length updates - i < fuel ->
  is_Some (ShopifyService.loop ShopifyProduct fuel replies updates i r).
Proof.
  revert i r. induction fuel as [|fuel IH]; intros i r Hfuel; [lia|].
  cbn [ShopifyService.loop]. case_bool_decide as Hi; [|done].
  apply IH. unfold ShopifyService.batchSize. lia.
Qed.

(** Run in index order, a chunk appends the entries of its failures in
    that order. *)
Lemma bulk_runBatch_errors k batch r :
  errors (ShopifyService.runBatch ShopifyProduct replies k batch r)
  = errors r ++ omap (errorOf ShopifyProduct replies) (indexed k batch).
Proof.
  revert k r. induction batch as [|update batch IH]; intros k r.
  - simpl. by rewrite app_nil_r.
  - cbn [ShopifyService.runBatch]. rewrite IH, indexed_cons. cbn [omap list_omap].
    unfold ShopifyService.settle, errorOf at 2. cbn [fst snd].
    destruct (updateProductDescription _ _ _ _); cbn [fst errors]; [done|].
    by rewrite <- app_assoc.
Qed.

Lemma bulk_loop_errors fuel i r r' :
  ShopifyService.loop ShopifyProduct fuel replies updates i r = Some r' ->
  errors r' = errors r ++ omap (errorOf ShopifyProduct replies) (drop i all).
Proof.
  revert i r. induction fuel as [|fuel IH]; intros i r; [done|].
  cbn [ShopifyService.loop]. case_bool_decide as Hi.
  - intros Hloop%IH. rewrite Hloop, bulk_runBatch_errors, <- app_assoc. f_equal.
    rewrite <- omap_app. f_equal.
    unfold slice. replace (i + ShopifyService.batchSize - i) with ShopifyService.batchSize by lia.
    rewrite indexed_take.
    replace (indexed i (drop i updates)) with (drop i all)
      by (symmetry; apply (indexed_drop 0 i)).
    rewrite <- drop_drop. by rewrite take_drop.
  - intros [= ->]. rewrite drop_ge, app_nil_r; [done|]. rewrite length_indexed. lia.
Qed.

Lemma errorOf_message (item : nat * Update.t) (entry : UpdateError.t) :
  errorOf ShopifyProduct replies item = Some entry ->
  UpdateError.productId entry = Update.productId item.2
  /\ UpdateError.error entry = js "Shopify service error: Failed to update product".
Proof.
  unfold errorOf, updateProductDescription.
  destruct (replies item.1); [done|]. by intros [= <-].
Qed.

Lemma settledItems_subseteq slots items : settledItems slots items ⊆ items.
Proof.
  revert items. induction slots as [|[k u|res] slots IH]; intros [|item items];
    cbn [settledItems]; try apply list_subseteq_nil.
  - by apply list_subseteq_cons.
  - intros x [->|Hx]%elem_of_cons; [by left|]. right. by apply IH.
Qed.

Lemma chunk_subseteq i : chunk i ⊆ all.
Proof.
  intros x Hx. apply (subseteq_take (i + ShopifyService.batchSize)).
  rewrite <- take_all_chunk. apply elem_of_app. by right.
Qed.

(** Every entry of [errors] is the entry of an update of the input. *)
Lemma bulk_invariant_errors s entry :
  ShopifyService.invariant ShopifyProduct replies updates s ->
  entry ∈ errors (ShopifyService.job s) ->
  exists item, item ∈ all /\ errorOf ShopifyProduct replies item = Some entry.
Proof.
  unfold ShopifyService.invariant. intros Hinv Hentry.
  assert (exists items, items ⊆ all /\ accounts' items (ShopifyService.job s))
    as (items & Hsub & _ & _ & Herrors).
  { destruct (ShopifyService.pc s) as [i|i slots|].
    - eexists. split; [apply subseteq_take | done].
    - destruct Hinv as [_ Hacc]. eexists. split; [|done].
      intros x [Hx|Hx]%elem_of_app; [by apply (subseteq_take i)|].
      by apply (chunk_subseteq i), (settledItems_subseteq slots).
    - by eexists. }
  rewrite Herrors in Hentry. apply list_elem_of_omap in Hentry as (item & Hitem & Herr).
  exists item. split; [by apply Hsub | done].
Qed.

Lemma elem_of_indexed {A} (l : list A) i k x :
  (k, x) ∈ indexed i l -> exists n, k = i + n /\ l !! n = Some x.
Proof.
  revert i. induction l as [|y l IH]; intros i; [by intros ?%elem_of_nil|].
  rewrite indexed_cons. intros [[= -> ->]|(n & -> & Hn)%IH]%elem_of_cons.
  - exists 0. split; [lia|done].
  - exists (S n). split; [lia|done].
Qed.
End BulkUpdate.

Lemma sample_updated_reachable :
  ShopifyService.reachable unit Samples.storeReplies [Samples.shoeUpdate; Samples.lampUpdate] Samples.updated.
Proof. by apply (bulk_loop_steps unit _ _ 3). Qed.

(** When [bulkUpdateProductDescriptions] has returned, whatever the order in
    which the updates of a chunk settled: every update was counted once,
    [failed] is the number of entries of [errors], and [errors] holds the
    entries of the failed updates, in some order. *)
Theorem bulk_update_tally (ShopifyProduct : Type)
    (replies : nat -> settled ShopifyProduct) (updates : list ShopifyService.Update.t)
    (s : ShopifyService.state) :
  ShopifyService.reachable ShopifyProduct replies updates s ->
  ShopifyService.pc s = ShopifyService.Returned ->
  ShopifyService.success (ShopifyService.job s) + ShopifyService.failed (ShopifyService.job s)
  = length updates
  /\ ShopifyService.failed (ShopifyService.job s)
     = length (ShopifyService.errors (ShopifyService.job s))
  /\ ShopifyService.errors (ShopifyService.job s)
     ≡ₚ omap (ShopifyService.errorOf ShopifyProduct replies) (indexed 0 updates).
Proof.
  intros Hs%bulk_invariant_reachable Hpc. unfold ShopifyService.invariant in Hs.
  rewrite Hpc in Hs. destruct Hs as (Hcount & Hfailed & Herrors).
  by rewrite length_indexed in Hcount.
Qed.

Lemma bulk_update_tally_witness :
  ShopifyService.success (ShopifyService.job Samples.updated)
  + ShopifyService.failed (ShopifyService.job Samples.updated) = 2.
Proof.
  exact (proj1 (bulk_update_tally unit Samples.storeReplies [Samples.shoeUpdate; Samples.lampUpdate]
                  Samples.updated sample_updated_reachable eq_refl)).
Defined.

(** [bulkUpdateProductDescriptions] returns for every input and every way
    the updates end; with the callbacks of a chunk run in index order it
    lists the failures in input order, and that run is an execution of the
    event model. *)
Theorem bulk_update_returns (ShopifyProduct : Type)
    (replies : nat -> settled ShopifyProduct) (updates : list ShopifyService.Update.t) :
  exists results,
    ShopifyService.bulkUpdateProductDescriptions ShopifyProduct replies updates = Some results
    /\ ShopifyService.reachable ShopifyProduct replies updates
         (ShopifyService.mkState ShopifyService.Returned results)
    /\ ShopifyService.errors results
       = omap (ShopifyService.errorOf ShopifyProduct replies) (indexed 0 updates).
Proof.
  destruct (bulk_loop_returns ShopifyProduct replies updates (S (length updates)) 0
              (ShopifyService.mkBulkUpdateResult 0 0 [])) as [results Hloop]; [lia|].
  exists results. split_and!; [done| |].
  - by apply (bulk_loop_steps _ _ _ (S (length updates))).
  - by apply bulk_loop_errors in Hloop.
Qed.

(** Whatever made an update fail, the entry the bulk update keeps for it
    carries the product id of an update of the input whose request was
    rejected, and the one fixed text: the cause is not in it. *)
Theorem bulk_update_error_text (ShopifyProduct : Type)
    (replies : nat -> settled ShopifyProduct) (updates : list ShopifyService.Update.t)
    (s : ShopifyService.state) (entry : ShopifyService.UpdateError.t) :
  ShopifyService.reachable ShopifyProduct replies updates s ->
  entry ∈ ShopifyService.errors (ShopifyService.job s) ->
  ShopifyService.UpdateError.error entry
  = js "Shopify service error: Failed to update product"
  /\ exists k update cause,
       updates !! k = Some update
       /\ replies k = Rejected cause
       /\ ShopifyService.UpdateError.productId entry = ShopifyService.Update.productId update.
Proof.
  intros Hs%bulk_invariant_reachable Hentry.
  destruct (bulk_invariant_errors _ _ _ _ _ Hs Hentry) as ([k update] & Hitem & Herr).
  apply elem_of_indexed in Hitem as (n & -> & Hn).
  pose proof (errorOf_message _ _ _ _ Herr) as [Hid Htext].
  split; [done|]. exists n, update.
  unfold ShopifyService.errorOf, ShopifyService.updateProductDescription in Herr.
  cbn [fst snd] in Herr, Hid. change (0 + n) with n in Herr.
  destruct (replies n) as [product|cause] eqn:Hreply; [done|]. by exists cause.
Qed.

Lemma bulk_update_error_text_witness :
  ShopifyService.UpdateError.error
    (ShopifyService.UpdateError.mk (js "p1")
       (js "Shopify service error: Failed to update product"))
  = js "Shopify service error: Failed to update product".
Proof.
  refine (proj1 (bulk_update_error_text unit Samples.storeReplies [Samples.shoeUpdate; Samples.lampUpdate]
                   Samples.updated _ sample_updated_reachable _)).
  apply list_elem_of_singleton. reflexivity.
Defined.
